(** * YOLOs-CPP: the camera pipeline and the performance analyzer

    A shallow embedding of

    - [src/camera_inference.cpp]: the three stages (producer, consumer,
      display) that [main] starts around two bounded queues and one
      atomic stop flag;
    - [benchmark/yolo_performance_analyzer.cpp]: the statistics of the
      video and camera benchmarks, [parseConfig] and the argument
      handling of [main].

    Threads are modelled by program counters and an interleaving step
    function: one step is one atomic action of the source (a load or
    store of the flag, one queue call, one call of the capture device,
    of the detector or of the window).  A queue call that would wait on
    a condition variable is a step that is not enabled.  Frames are
    values: the order tag of a frame is the frame. *)

From Stdlib Require Import List Bool Arith Lia ZArith QArith Lqa.
From Stdlib Require String Ascii DecimalString.
Import ListNotations.
Close Scope Q_scope.

Set Implicit Arguments.

(* ================================================================== *)
(** * Part I: definitions                                              *)
(* ================================================================== *)

(** ** The bounded queue *)

Module BoundedThreadSafeQueue.

Section Queue.

Variable T : Type.

(** Modelled from the spec: [tools/BoundedThreadSafeQueue.hpp] is
    included by [camera_inference.cpp] but is not among the sources.
    The state is the buffer in insertion order, the capacity [K] and
    the one-way [finished] flag (section 3).  The operations carry the
    names under which [camera_inference.cpp] calls them: [enqueue] is
    the spec's [put], [dequeue] its [get], [set_finished] its
    [markFinished]. *)
Record t : Type := mk
  { items : list T;
    capacity : nat;
    finished : bool }.

Definition size (q : t) : nat := length (items q).

Definition create (max_size : nat) : t :=
  {| items := []; capacity := max_size; finished := false |}.

Inductive enqueue_result : Type :=
| Accepted (q' : t)
| Rejected
| EnqueueWaits.

Inductive dequeue_result : Type :=
| Item (x : T) (q' : t)
| Closed
| DequeueWaits.

(** Modelled from the spec: [put] of the missing header (section 4.1).
    It waits while [size == K] and [finished == false]; it returns
    [false] without buffering once the queue is finished (a finished
    queue never receives further items, sections 7 and glossary);
    otherwise the item goes to the back of the buffer and it returns
    [true]. *)
Definition enqueue (x : T) (q : t) : enqueue_result :=
  if finished q then Rejected
  else if size q =? capacity q then EnqueueWaits
  else Accepted {| items := items q ++ [x];
                   capacity := capacity q;
                   finished := finished q |}.

(** Modelled from the spec: [get] of the missing header (section 4.1).
    It waits while [size == 0] and [finished == false]; it hands out
    the oldest item whenever there is one, whatever [finished] is; it
    reports closed only on an empty finished queue. *)
Definition dequeue (q : t) : dequeue_result :=
  match items q with
  | x :: rest => Item x {| items := rest;
                           capacity := capacity q;
                           finished := finished q |}
  | [] => if finished q then Closed else DequeueWaits
  end.

(** Modelled from the spec: [markFinished] of the missing header
    (section 4.1).  The flag is set; the buffer is kept. *)
Definition set_finished (q : t) : t :=
  {| items := items q; capacity := capacity q; finished := true |}.

(** What a consumer sees over [n] calls of [dequeue] in a row. *)
Inductive observation : Type :=
| Got (x : T)
| SawClosed
| Waited.

Fixpoint dequeue_seq (n : nat) (q : t) : list observation :=
  match n with
  | O => []
  | S n' =>
      match dequeue q with
      | Item x q' => Got x :: dequeue_seq n' q'
      | Closed => SawClosed :: dequeue_seq n' q
      | DequeueWaits => Waited :: dequeue_seq n' q
      end
  end.

(** A producer that offers [xs] one after the other, with no
    [dequeue] in between; [None] as soon as one offer is not
    accepted. *)
Fixpoint enqueue_all (xs : list T) (q : t) : option t :=
  match xs with
  | [] => Some q
  | x :: rest =>
      match enqueue x q with
      | Accepted q' => enqueue_all rest q'
      | _ => None
      end
  end.

(** Arbitrary use of one queue. *)
Inductive op : Type :=
| OpEnqueue (x : T)
| OpDequeue
| OpSetFinished.

Definition apply_op (o : op) (q : t) : t :=
  match o with
  | OpEnqueue x =>
      match enqueue x q with Accepted q' => q' | _ => q end
  | OpDequeue =>
      match dequeue q with Item _ q' => q' | _ => q end
  | OpSetFinished => set_finished q
  end.

Definition apply_ops (os : list op) (q : t) : t :=
  fold_left (fun acc o => apply_op o acc) os q.

End Queue.

Arguments Rejected {T}.
Arguments EnqueueWaits {T}.
Arguments Closed {T}.
Arguments DequeueWaits {T}.
Arguments SawClosed {T}.
Arguments Waited {T}.
Arguments OpDequeue {T}.
Arguments OpSetFinished {T}.

End BoundedThreadSafeQueue.

(** ** The camera pipeline of [camera_inference.cpp] *)

Module CameraInference.

Module BQ := BoundedThreadSafeQueue.

Inductive Thread : Type := Producer | Consumer | Display.

Section Pipeline.

Variables Frame Detection : Type.

(** The payload of [processedQueue]:
    [std::pair<cv::Mat, std::vector<Detection>>]. *)
Definition Processed : Type := (Frame * list Detection)%type.

(** The three external capabilities.  [cap_read n] is the outcome of
    the [n]-th call of [cap.read(frame)] ([None]: it returned false);
    [detect f] is [None] when [detector.detect(frame)] throws;
    [waitKey_q n] tells whether the [n]-th call of [cv::waitKey(1)]
    returns ['q']. *)
Variable cap_read : nat -> option Frame.
Variable detect : Frame -> option (list Detection).
Variable waitKey_q : nat -> bool.

(** Program points of the producer lambda (lines 172-180). *)
Inductive ProducerPC : Type :=
| PLoop                     (* !stopFlag.load() *)
| PRead                     (* cap.read(frame) *)
| PEnqueue (frame : Frame)  (* frameQueue.enqueue(frame) *)
| PSetFinished              (* frameQueue.set_finished() *)
| PDone.

(** Program points of the consumer lambda (lines 183-195). *)
Inductive ConsumerPC : Type :=
| CLoop                        (* !stopFlag.load() *)
| CDequeue                     (* frameQueue.dequeue(frame) *)
| CDetect (frame : Frame)      (* detector.detect(frame) *)
| CEnqueue (item : Processed)  (* processedQueue.enqueue(...) *)
| CSetFinished                 (* processedQueue.set_finished() *)
| CDone.

(** Program points of the display loop (lines 201-214 on the main
    thread under [__APPLE__], lines 217-234 in [displayThread]
    otherwise: the two loops are the same statements). *)
Inductive DisplayPC : Type :=
| DLoop                     (* !stopFlag.load() *)
| DDequeue                  (* processedQueue.dequeue(item) *)
| DShow (item : Processed)  (* drawBoundingBoxMask; cv::imshow *)
| DWaitKey                  (* cv::waitKey(1) == 'q' *)
| DStoreStop                (* stopFlag.store(true) *)
| DFinishFrames             (* frameQueue.set_finished() *)
| DFinishProcessed          (* processedQueue.set_finished(); break *)
| DDone.

(** The shared objects of [main], the program counters of the three
    stages, and the history of the run: what was accepted by and
    taken from each queue, what was shown, how often the device and
    the keyboard were asked, how often the producer closed its queue,
    whether ['q'] was seen, and whether an exception left a thread
    function ([std::terminate]). *)
Record State : Type := mkState
  { stopFlag : bool;
    frameQueue : BQ.t Frame;
    processedQueue : BQ.t Processed;
    ppc : ProducerPC;
    cpc : ConsumerPC;
    dpc : DisplayPC;
    terminated : bool;
    reads : nat;
    polls : nat;
    enqueuedA : list Frame;
    dequeuedA : list Frame;
    enqueuedB : list Processed;
    dequeuedB : list Processed;
    shown : list Processed;
    producer_finish_calls : nat;
    quit_seen : bool }.

Definition max_queue_size : nat := 2.

Definition init : State :=
  {| stopFlag := false;
     frameQueue := BQ.create Frame max_queue_size;
     processedQueue := BQ.create Processed max_queue_size;
     ppc := PLoop; cpc := CLoop; dpc := DLoop;
     terminated := false;
     reads := 0; polls := 0;
     enqueuedA := []; dequeuedA := [];
     enqueuedB := []; dequeuedB := [];
     shown := [];
     producer_finish_calls := 0;
     quit_seen := false |}.

Definition producer_step (s : State) : option State :=
  match ppc s with
  | PLoop =>
      Some (mkState (stopFlag s) (frameQueue s) (processedQueue s)
              (if stopFlag s then PSetFinished else PRead)
              (cpc s) (dpc s) (terminated s) (reads s) (polls s)
              (enqueuedA s) (dequeuedA s) (enqueuedB s) (dequeuedB s)
              (shown s) (producer_finish_calls s) (quit_seen s))
  | PRead =>
      Some (mkState (stopFlag s) (frameQueue s) (processedQueue s)
              (match cap_read (reads s) with
               | Some frame => PEnqueue frame
               | None => PSetFinished
               end)
              (cpc s) (dpc s) (terminated s) (S (reads s)) (polls s)
              (enqueuedA s) (dequeuedA s) (enqueuedB s) (dequeuedB s)
              (shown s) (producer_finish_calls s) (quit_seen s))
  | PEnqueue frame =>
      match BQ.enqueue frame (frameQueue s) with
      | BQ.Accepted q' =>
          Some (mkState (stopFlag s) q' (processedQueue s)
                  PLoop
                  (cpc s) (dpc s) (terminated s) (reads s) (polls s)
                  (enqueuedA s ++ [frame]) (dequeuedA s)
                  (enqueuedB s) (dequeuedB s)
                  (shown s) (producer_finish_calls s) (quit_seen s))
      | BQ.Rejected =>
          Some (mkState (stopFlag s) (frameQueue s) (processedQueue s)
                  PSetFinished
                  (cpc s) (dpc s) (terminated s) (reads s) (polls s)
                  (enqueuedA s) (dequeuedA s) (enqueuedB s) (dequeuedB s)
                  (shown s) (producer_finish_calls s) (quit_seen s))
      | BQ.EnqueueWaits => None
      end
  | PSetFinished =>
      Some (mkState (stopFlag s) (BQ.set_finished (frameQueue s))
              (processedQueue s)
              PDone
              (cpc s) (dpc s) (terminated s) (reads s) (polls s)
              (enqueuedA s) (dequeuedA s) (enqueuedB s) (dequeuedB s)
              (shown s) (S (producer_finish_calls s)) (quit_seen s))
  | PDone => None
  end.

Definition consumer_step (s : State) : option State :=
  match cpc s with
  | CLoop =>
      Some (mkState (stopFlag s) (frameQueue s) (processedQueue s)
              (ppc s)
              (if stopFlag s then CSetFinished else CDequeue)
              (dpc s) (terminated s) (reads s) (polls s)
              (enqueuedA s) (dequeuedA s) (enqueuedB s) (dequeuedB s)
              (shown s) (producer_finish_calls s) (quit_seen s))
  | CDequeue =>
      match BQ.dequeue (frameQueue s) with
      | BQ.Item frame q' =>
          Some (mkState (stopFlag s) q' (processedQueue s)
                  (ppc s) (CDetect frame) (dpc s)
                  (terminated s) (reads s) (polls s)
                  (enqueuedA s) (dequeuedA s ++ [frame])
                  (enqueuedB s) (dequeuedB s)
                  (shown s) (producer_finish_calls s) (quit_seen s))
      | BQ.Closed =>
          Some (mkState (stopFlag s) (frameQueue s) (processedQueue s)
                  (ppc s) CSetFinished (dpc s)
                  (terminated s) (reads s) (polls s)
                  (enqueuedA s) (dequeuedA s) (enqueuedB s) (dequeuedB s)
                  (shown s) (producer_finish_calls s) (quit_seen s))
      | BQ.DequeueWaits => None
      end
  | CDetect frame =>
      match detect frame with
      | Some detections =>
          Some (mkState (stopFlag s) (frameQueue s) (processedQueue s)
                  (ppc s) (CEnqueue (frame, detections)) (dpc s)
                  (terminated s) (reads s) (polls s)
                  (enqueuedA s) (dequeuedA s) (enqueuedB s) (dequeuedB s)
                  (shown s) (producer_finish_calls s) (quit_seen s))
      | None =>
          (* no handler in the lambda: the exception leaves the
             thread function and the process is terminated *)
          Some (mkState (stopFlag s) (frameQueue s) (processedQueue s)
                  (ppc s) (cpc s) (dpc s)
                  true (reads s) (polls s)
                  (enqueuedA s) (dequeuedA s) (enqueuedB s) (dequeuedB s)
                  (shown s) (producer_finish_calls s) (quit_seen s))
      end
  | CEnqueue item =>
      match BQ.enqueue item (processedQueue s) with
      | BQ.Accepted q' =>
          Some (mkState (stopFlag s) (frameQueue s) q'
                  (ppc s) CLoop (dpc s)
                  (terminated s) (reads s) (polls s)
                  (enqueuedA s) (dequeuedA s)
                  (enqueuedB s ++ [item]) (dequeuedB s)
                  (shown s) (producer_finish_calls s) (quit_seen s))
      | BQ.Rejected =>
          Some (mkState (stopFlag s) (frameQueue s) (processedQueue s)
                  (ppc s) CSetFinished (dpc s)
                  (terminated s) (reads s) (polls s)
                  (enqueuedA s) (dequeuedA s) (enqueuedB s) (dequeuedB s)
                  (shown s) (producer_finish_calls s) (quit_seen s))
      | BQ.EnqueueWaits => None
      end
  | CSetFinished =>
      Some (mkState (stopFlag s) (frameQueue s)
              (BQ.set_finished (processedQueue s))
              (ppc s) CDone (dpc s)
              (terminated s) (reads s) (polls s)
              (enqueuedA s) (dequeuedA s) (enqueuedB s) (dequeuedB s)
              (shown s) (producer_finish_calls s) (quit_seen s))
  | CDone => None
  end.

Definition display_step (s : State) : option State :=
  match dpc s with
  | DLoop =>
      Some (mkState (stopFlag s) (frameQueue s) (processedQueue s)
              (ppc s) (cpc s)
              (if stopFlag s then DDone else DDequeue)
              (terminated s) (reads s) (polls s)
              (enqueuedA s) (dequeuedA s) (enqueuedB s) (dequeuedB s)
              (shown s) (producer_finish_calls s) (quit_seen s))
  | DDequeue =>
      match BQ.dequeue (processedQueue s) with
      | BQ.Item item q' =>
          Some (mkState (stopFlag s) (frameQueue s) q'
                  (ppc s) (cpc s) (DShow item)
                  (terminated s) (reads s) (polls s)
                  (enqueuedA s) (dequeuedA s)
                  (enqueuedB s) (dequeuedB s ++ [item])
                  (shown s) (producer_finish_calls s) (quit_seen s))
      | BQ.Closed =>
          Some (mkState (stopFlag s) (frameQueue s) (processedQueue s)
                  (ppc s) (cpc s) DDone
                  (terminated s) (reads s) (polls s)
                  (enqueuedA s) (dequeuedA s) (enqueuedB s) (dequeuedB s)
                  (shown s) (producer_finish_calls s) (quit_seen s))
      | BQ.DequeueWaits => None
      end
  | DShow item =>
      Some (mkState (stopFlag s) (frameQueue s) (processedQueue s)
              (ppc s) (cpc s) DWaitKey
              (terminated s) (reads s) (polls s)
              (enqueuedA s) (dequeuedA s) (enqueuedB s) (dequeuedB s)
              (shown s ++ [item]) (producer_finish_calls s) (quit_seen s))
  | DWaitKey =>
      Some (mkState (stopFlag s) (frameQueue s) (processedQueue s)
              (ppc s) (cpc s)
              (if waitKey_q (polls s) then DStoreStop else DLoop)
              (terminated s) (reads s) (S (polls s))
              (enqueuedA s) (dequeuedA s) (enqueuedB s) (dequeuedB s)
              (shown s) (producer_finish_calls s)
              (quit_seen s || waitKey_q (polls s)))
  | DStoreStop =>
      Some (mkState true (frameQueue s) (processedQueue s)
              (ppc s) (cpc s) DFinishFrames
              (terminated s) (reads s) (polls s)
              (enqueuedA s) (dequeuedA s) (enqueuedB s) (dequeuedB s)
              (shown s) (producer_finish_calls s) (quit_seen s))
  | DFinishFrames =>
      Some (mkState (stopFlag s) (BQ.set_finished (frameQueue s))
              (processedQueue s)
              (ppc s) (cpc s) DFinishProcessed
              (terminated s) (reads s) (polls s)
              (enqueuedA s) (dequeuedA s) (enqueuedB s) (dequeuedB s)
              (shown s) (producer_finish_calls s) (quit_seen s))
  | DFinishProcessed =>
      Some (mkState (stopFlag s) (frameQueue s)
              (BQ.set_finished (processedQueue s))
              (ppc s) (cpc s) DDone
              (terminated s) (reads s) (polls s)
              (enqueuedA s) (dequeuedA s) (enqueuedB s) (dequeuedB s)
              (shown s) (producer_finish_calls s) (quit_seen s))
  | DDone => None
  end.

(** One atomic action of thread [t]; [None] when [t] waits inside a
    queue call, has returned, or the process is gone. *)
Definition step (t : Thread) (s : State) : option State :=
  if terminated s then None
  else match t with
       | Producer => producer_step s
       | Consumer => consumer_step s
       | Display => display_step s
       end.

Inductive reachable : State -> Prop :=
| reachable_init : reachable init
| reachable_step t s s' :
    reachable s -> step t s = Some s' -> reachable s'.

(** Run a schedule; a thread that cannot move when it is picked
    leaves the state as it is. *)
Fixpoint run (sched : list Thread) (s : State) : State :=
  match sched with
  | [] => s
  | t :: rest =>
      match step t s with
      | Some s' => run rest s'
      | None => run rest s
      end
  end.

Definition producer_done (s : State) : bool :=
  match ppc s with PDone => true | _ => false end.
Definition consumer_done (s : State) : bool :=
  match cpc s with CDone => true | _ => false end.
Definition display_done (s : State) : bool :=
  match dpc s with DDone => true | _ => false end.

(** All three joins of [main] return. *)
Definition all_done (s : State) : bool :=
  producer_done s && consumer_done s && display_done s.

(** Frames held by a stage between its [dequeue] and its hand-over. *)
Definition consumer_holds (s : State) : list Frame :=
  match cpc s with
  | CDetect frame => [frame]
  | CEnqueue item => [fst item]
  | _ => []
  end.

Definition display_holds (s : State) : list Processed :=
  match dpc s with
  | DShow item => [item]
  | _ => []
  end.

(** Accepted by [frameQueue] and not yet shown, oldest first. *)
Definition in_transit (s : State) : list Frame :=
  map fst (display_holds s)
    ++ map fst (BQ.items (processedQueue s))
    ++ consumer_holds s
    ++ BQ.items (frameQueue s).

(** [main] (lines 151-246): the device is opened first; when that
    fails [main] returns -1 before any queue or thread exists.
    Otherwise the three stages run (here: along [sched]) and [main]
    returns 0 once all of them are joined. *)
Record MainResult : Type := mkMainResult
  { exit_code : option Z;
    spawned : list Thread;
    final : option State }.

Definition main (isOpened : bool) (sched : list Thread) : MainResult :=
  if negb isOpened then
    {| exit_code := Some (-1)%Z; spawned := []; final := None |}
  else
    let s := run sched init in
    {| exit_code := if all_done s then Some 0%Z else None;
       spawned := [Producer; Consumer; Display];
       final := Some s |}.

(** What the display loop has done of its quit branch (lines 227-232)
    at each of its program points. *)
Definition quit_protocol (s : State) : Prop :=
  match dpc s with
  | DStoreStop => quit_seen s = true /\ stopFlag s = false
  | DFinishFrames => quit_seen s = true /\ stopFlag s = true
  | DFinishProcessed =>
      quit_seen s = true /\ stopFlag s = true /\
      BQ.finished (frameQueue s) = true
  | DDone =>
      stopFlag s = quit_seen s /\
      (quit_seen s = true ->
       BQ.finished (frameQueue s) = true /\
       BQ.finished (processedQueue s) = true)
  | _ => quit_seen s = false /\ stopFlag s = false
  end.

Definition consumer_left_loop (s : State) : Prop :=
  match cpc s with
  | CSetFinished | CDone => True
  | _ => False
  end.

(** The invariant of the three loops: the capacity bound, the FIFO
    bookkeeping of both queues, who may have closed a queue, and what
    is known once a stage has left its loop. *)
Record Inv (s : State) : Prop := mkInv
  { inv_capA : BQ.capacity (frameQueue s) = max_queue_size;
    inv_capB : BQ.capacity (processedQueue s) = max_queue_size;
    inv_sizeA : BQ.size (frameQueue s) <= max_queue_size;
    inv_sizeB : BQ.size (processedQueue s) <= max_queue_size;
    inv_fifoA : enqueuedA s = dequeuedA s ++ BQ.items (frameQueue s);
    inv_fifoB : enqueuedB s = dequeuedB s ++ BQ.items (processedQueue s);
    inv_display : dequeuedB s = shown s ++ display_holds s;
    inv_consumer_busy :
      ~ consumer_left_loop s ->
      dequeuedA s = map fst (enqueuedB s) ++ consumer_holds s;
    inv_consumer_prefix :
      exists rest, dequeuedA s = map fst (enqueuedB s) ++ rest;
    inv_consumer_exact :
      stopFlag s = false ->
      dequeuedA s = map fst (enqueuedB s) ++ consumer_holds s;
    inv_finA :
      BQ.finished (frameQueue s) = true ->
      stopFlag s = true \/ ppc s = PDone;
    inv_finB :
      BQ.finished (processedQueue s) = true ->
      stopFlag s = true \/ cpc s = CDone;
    inv_quit : quit_protocol s;
    inv_display_exit :
      dpc s = DDone ->
      stopFlag s = true \/
      (BQ.items (processedQueue s) = [] /\
       BQ.finished (processedQueue s) = true);
    inv_consumer_exit :
      consumer_left_loop s ->
      stopFlag s = true \/
      (BQ.items (frameQueue s) = [] /\
       BQ.finished (frameQueue s) = true);
    inv_producer_calls :
      producer_finish_calls s = if producer_done s then 1 else 0;
    inv_producer_exit :
      ppc s = PDone -> BQ.finished (frameQueue s) = true;
    inv_consumer_done :
      cpc s = CDone -> BQ.finished (processedQueue s) = true }.

(** *** Bookkeeping of the source, the detector and the keyboard *)

(** The frame the producer holds between [cap.read] and [enqueue]. *)
Definition producer_holds (s : State) : list Frame :=
  match ppc s with
  | PEnqueue frame => [frame]
  | _ => []
  end.

Definition producer_left_loop (s : State) : Prop :=
  match ppc s with
  | PSetFinished | PDone => True
  | _ => False
  end.

(** The frames delivered by the first [n] calls of [cap.read], in
    order. *)
Fixpoint captured (n : nat) : list Frame :=
  match n with
  | O => []
  | S n' =>
      captured n' ++ match cap_read n' with
                     | Some frame => [frame]
                     | None => []
                     end
  end.

(** The number of steps taken along a schedule. *)
Fixpoint steps (sched : list Thread) (s : State) : nat :=
  match sched with
  | [] => 0
  | t :: rest =>
      match step t s with
      | Some s' => S (steps rest s')
      | None => steps rest s
      end
  end.

(** No stage can move. *)
Definition stuck (s : State) : Prop := forall t, step t s = None.

(** What the three loops keep about their devices: every pair offered
    to [processedQueue] is a frame with the detections of this frame;
    the process is gone only after a throwing [detect]; the keyboard is
    polled once per shown frame and not again after ['q']; the producer
    hands on the frames of the source in order, and leaves its loop
    without a stop request only after a failed read. *)
Record DeviceInv (s : State) : Prop := mkDeviceInv
  { dev_detections :
      Forall (fun item => detect (fst item) = Some (snd item))
        (enqueuedB s);
    dev_consumer_item :
      forall item, cpc s = CEnqueue item ->
                   detect (fst item) = Some (snd item);
    dev_terminated :
      terminated s = true ->
      exists frame, cpc s = CDetect frame /\ detect frame = None;
    dev_polls_before :
      forall n, S n < polls s -> waitKey_q n = false;
    dev_polls_last :
      forall n, polls s = S n -> waitKey_q n = quit_seen s;
    dev_polls_none : polls s = 0 -> quit_seen s = false;
    dev_polls_shown :
      length (shown s)
      = polls s + match dpc s with DWaitKey => 1 | _ => 0 end;
    dev_reads_busy :
      ~ producer_left_loop s ->
      captured (reads s) = enqueuedA s ++ producer_holds s /\
      forall i, i < reads s -> cap_read i <> None;
    dev_reads_prefix :
      exists rest, captured (reads s) = enqueuedA s ++ rest;
    dev_reads_exact :
      stopFlag s = false ->
      captured (reads s) = enqueuedA s ++ producer_holds s;
    dev_reads_exit :
      producer_left_loop s -> stopFlag s = false ->
      exists n, reads s = S n /\ cap_read n = None /\
                forall i, i < n -> cap_read i <> None }.

(** *** A bound on the work that is left

    [N] is the number of a call of [cap.read] that fails. *)

Definition producer_fuel (N : nat) (s : State) : nat :=
  match ppc s with
  | PLoop => 3 * (N - reads s) + 4
  | PRead => 3 * (N - reads s) + 3
  | PEnqueue _ => 3 * (N - reads s) + 5
  | PSetFinished => 1
  | PDone => 0
  end.

(** Frames that may still reach the consumer, and the display. *)
Definition upstream_of_consumer (N : nat) (s : State) : nat :=
  (N - reads s) + length (producer_holds s) + BQ.size (frameQueue s).

Definition upstream_of_display (N : nat) (s : State) : nat :=
  upstream_of_consumer N s + length (consumer_holds s)
    + BQ.size (processedQueue s).

Definition consumer_fuel (N : nat) (s : State) : nat :=
  4 * upstream_of_consumer N s
  + match cpc s with
    | CDetect _ => 5
    | CEnqueue _ => 4
    | CLoop => 3
    | CDequeue => 2
    | CSetFinished => 1
    | CDone => 0
    end.

Definition display_fuel (N : nat) (s : State) : nat :=
  4 * upstream_of_display N s
  + match dpc s with
    | DShow _ => 7
    | DWaitKey => 6
    | DLoop => 5
    | DDequeue => 4
    | DStoreStop => 3
    | DFinishFrames => 2
    | DFinishProcessed => 1
    | DDone => 0
    end.

Definition fuel (N : nat) (s : State) : nat :=
  if terminated s then 0
  else producer_fuel N s + consumer_fuel N s + display_fuel N s.

End Pipeline.

Arguments PLoop {Frame}.
Arguments PRead {Frame}.
Arguments PSetFinished {Frame}.
Arguments PDone {Frame}.
Arguments CLoop {Frame Detection}.
Arguments CDequeue {Frame Detection}.
Arguments CDetect {Frame Detection} frame.
Arguments CSetFinished {Frame Detection}.
Arguments CDone {Frame Detection}.
Arguments DLoop {Frame Detection}.
Arguments DDequeue {Frame Detection}.
Arguments DWaitKey {Frame Detection}.
Arguments DStoreStop {Frame Detection}.
Arguments DFinishFrames {Frame Detection}.
Arguments DFinishProcessed {Frame Detection}.
Arguments DDone {Frame Detection}.

End CameraInference.

(** ** Concrete runs of the pipeline

    Frames are numbered from 1 in capture order; the detector finds
    nothing. *)

Module Scenario.

Import CameraInference.

(** A source that delivers frames [1..n] and then ends. *)
Definition frames_up_to (n : nat) : nat -> option nat :=
  fun i => if i <? n then Some (S i) else None.

(** A live camera: it never ends. *)
Definition live_camera : nat -> option nat :=
  fun i => Some (S i).

Definition detect_nothing : nat -> option (list nat) :=
  fun _ => Some [].

(** A detector that throws on frame [bad]. *)
Definition detect_throws_on (bad : nat) : nat -> option (list nat) :=
  fun frame => if frame =? bad then None else Some [].

Definition never_q : nat -> bool := fun _ => false.

(** ['q'] is pressed during the [k]-th poll (counted from 0). *)
Definition q_at (k : nat) : nat -> bool := fun n => n =? k.

Definition round_robin (rounds : nat) : list Thread :=
  concat (repeat [Producer; Consumer; Display] rounds).

(** Normal drain: five frames, nobody presses a key. *)
Definition drained : State nat nat :=
  run (frames_up_to 5) detect_nothing never_q (round_robin 40)
    (init nat nat).

(** Mid-stream quit on a live camera.  The producer runs ahead until it
    waits on the full [frameQueue]; the consumer handles frame 1; the
    producer fills the queue again and waits with frame 4 in its hand;
    the display shows frame 1 and is about to poll the keyboard. *)
Definition before_quit : list Thread :=
  repeat Producer 10 ++ repeat Consumer 4 ++ repeat Producer 4
    ++ repeat Display 3.

Definition at_waitKey : State nat nat :=
  run live_camera detect_nothing (q_at 0) before_quit (init nat nat).

(** ['q'] is seen; then everybody runs until all have returned. *)
Definition after_quit : list Thread :=
  repeat Display 4 ++ round_robin 6.

Definition quit_done : State nat nat :=
  run live_camera detect_nothing (q_at 0) after_quit at_waitKey.

(** Detector failure: five frames, [detect] throws on frame 3. *)
Definition before_throw : State nat nat :=
  run (frames_up_to 5) (detect_throws_on 3) never_q (round_robin 11)
    (init nat nat).

Definition after_throw : State nat nat :=
  run (frames_up_to 5) (detect_throws_on 3) never_q (round_robin 40)
    (init nat nat).

End Scenario.

(** ** The benchmark tool of [yolo_performance_analyzer.cpp] *)

Module PerformanceAnalyzer.

Import String Ascii.

(** What a call does: it returns, it throws a [std::exception], or it
    runs into undefined behaviour. *)
Inductive exn : Type :=
| runtime_error (what : string)
| invalid_argument (what : string)
| out_of_range (what : string).

Inductive res (A : Type) : Type :=
| Ok (a : A)
| Throw (e : exn)
| Undefined (what : string).

Arguments Ok {A} a.
Arguments Throw {A} e.
Arguments Undefined {A} what.

Definition bind {A B : Type} (r : res A) (k : A -> res B) : res B :=
  match r with
  | Ok a => k a
  | Throw e => Throw e
  | Undefined w => Undefined w
  end.

Notation "x <- r ;; k" := (bind r (fun x => k))
  (at level 61, r at next level, right associativity).

(** *** Statistics (lines 361-384 and 464-487) *)

(** A [double] that a statistic leaves in a metrics field: a value, or
    no defined value because the divisor was zero, or because the
    iterator that was dereferenced is the end of its range. *)
Inductive stat : Type :=
| Value (v : Q)
| DivisionByZero
| DerefEnd.

Definition accumulate (values : list Q) (init : Q) : Q :=
  fold_left Qplus values init.

(** [x / values.size()]. *)
Definition divide_by_size (x : Q) (size : nat) : stat :=
  if size =? 0 then DivisionByZero
  else Value (x / inject_Z (Z.of_nat size))%Q.

(** [x / y] on doubles. *)
Definition divide (x y : Q) : stat :=
  if Qeq_bool y 0 then DivisionByZero else Value (x / y)%Q.

Definition calc_avg (values : list Q) : stat :=
  divide_by_size (accumulate values 0%Q) (List.length values).

(** [std::minmax_element]: iterators are positions in the vector; the
    result is the first smallest and the last largest element, and
    [(first, first)] on an empty range, where [first] is also the
    end. *)
Fixpoint minmax_scan (values : list Q) (i : nat) (mn mx : nat * Q)
  : nat * nat :=
  match values with
  | [] => (fst mn, fst mx)
  | v :: rest =>
      minmax_scan rest (S i)
        (if Qle_bool (snd mn) v then mn else (i, v))
        (if Qle_bool (snd mx) v then (i, v) else mx)
  end.

Definition minmax_element (values : list Q) : nat * nat :=
  match values with
  | [] => (0, 0)
  | v :: rest => minmax_scan rest 1 (0, v) (0, v)
  end.

Definition deref (values : list Q) (it : nat) : stat :=
  match nth_error values it with
  | Some v => Value v
  | None => DerefEnd
  end.

Definition calc_min_max (values : list Q) : stat * stat :=
  let minmax := minmax_element values in
  (deref values (fst minmax), deref values (snd minmax)).

(** *** The benchmarks *)

Record BenchmarkConfig : Type := mkConfig
  { model_type : string;
    task_type : string;
    model_path : string;
    labels_path : string;
    use_gpu : bool;
    thread_count : Z;
    quantized : bool;
    precision : string }.

Record PerformanceMetrics : Type := mkMetrics
  { load_time_ms : Q;
    total_avg_ms : stat;
    fps : stat;
    memory_mb : Q;
    frame_count : nat;
    cpu_usage_percent : stat;
    gpu_usage_percent : stat;
    gpu_memory_used_mb : stat;
    system_memory_used_mb : Q;
    latency_avg_ms : stat;
    latency_min_ms : stat;
    latency_max_ms : stat;
    environment_type : string }.

(** What the clocks and the system monitor report around a run. *)
Record Probe : Type := mkProbe
  { load_ms : Q;
    initial_memory : Q;
    final_memory : Q;
    initial_sys_memory : Q;
    final_sys_memory : Q;
    total_time : Q }.

(** What is measured for one processed frame. *)
Record Sample : Type := mkSample
  { cpu_usage : Q;
    gpu_util : Q;
    gpu_mem : Q;
    frame_time : Q;
    latency : Q }.

(** [std::to_string] on an [int]. *)
Definition to_string (n : Z) : string :=
  DecimalString.NilZero.string_of_int (Z.to_int n).

(** [DetectorFactory::createDetector] (lines 153-182): the supported
    combinations, and the exception for the others. *)
Definition createDetector (config : BenchmarkConfig) : res unit :=
  if ((model_type config =? "yolo11") || (model_type config =? "yolo8")
      || (model_type config =? "yolo11_quantized")
      || (model_type config =? "yolo8_quantized"))%string
     && (task_type config =? "detection")%string
  then Ok tt
  else Throw (runtime_error
                ("Unsupported model type: " ++ model_type config
                 ++ " with task: " ++ task_type config)%string).

(** The statistics block shared by the video and the camera benchmark,
    from the vectors filled by the loop. *)
Definition statistics (config : BenchmarkConfig) (probe : Probe)
    (frames : list Sample) : PerformanceMetrics :=
  let frame_times := map frame_time frames in
  let latency_times := map latency frames in
  let latency_minmax := calc_min_max latency_times in
  {| load_time_ms := load_ms probe;
     total_avg_ms := calc_avg frame_times;
     fps := divide (inject_Z (Z.of_nat (List.length frames)) * 1000)%Q
              (total_time probe);
     memory_mb := (final_memory probe - initial_memory probe)%Q;
     frame_count := List.length frames;
     cpu_usage_percent := calc_avg (map cpu_usage frames);
     gpu_usage_percent := calc_avg (map gpu_util frames);
     gpu_memory_used_mb := calc_avg (map gpu_mem frames);
     system_memory_used_mb :=
       (final_sys_memory probe - initial_sys_memory probe)%Q;
     latency_avg_ms := calc_avg latency_times;
     latency_min_ms := fst latency_minmax;
     latency_max_ms := snd latency_minmax;
     environment_type := if use_gpu config then "GPU" else "CPU" |}.

(** The frames the video loop processes: [reads] lists the outcomes of
    [cap.read(frame) && !frame.empty()], one per evaluation; the loop
    ends with the first failure (line 325). *)
Fixpoint video_frames (reads : list (option Sample)) : list Sample :=
  match reads with
  | Some sample :: rest => sample :: video_frames rest
  | _ => []
  end.

(** The frames the camera loop processes: [reads] lists the outcomes
    of the reads made before [end_target]; a failed read sleeps and
    goes on (lines 423-427). *)
Fixpoint camera_frames (reads : list (option Sample)) : list Sample :=
  match reads with
  | [] => []
  | Some sample :: rest => sample :: camera_frames rest
  | None :: rest => camera_frames rest
  end.

Definition benchmark_video_comprehensive (config : BenchmarkConfig)
    (video_path : string) (isOpened : bool) (probe : Probe)
    (reads : list (option Sample)) : res PerformanceMetrics :=
  _ <- createDetector config ;;
  if negb isOpened then
    Throw (runtime_error ("Could not open video: " ++ video_path)%string)
  else Ok (statistics config probe (video_frames reads)).

Definition benchmark_camera_comprehensive (config : BenchmarkConfig)
    (camera_id : Z) (isOpened : bool) (probe : Probe)
    (reads : list (option Sample)) : res PerformanceMetrics :=
  _ <- createDetector config ;;
  if negb isOpened then
    Throw (runtime_error
             ("Could not open camera with ID: " ++ to_string camera_id)%string)
  else Ok (statistics config probe (camera_frames reads)).

(** *** The command line (lines 524-556 and 559-699) *)

(** [argv] is the list of the [argc] arguments; [argv[argc]] is the
    null pointer, and nothing may be read behind it. *)
Inductive c_str : Type :=
| Chars (s : string)
| NullPointer
| PastTheEnd.

Definition argv_at (argv : list string) (i : nat) : c_str :=
  match nth_error argv i with
  | Some s => Chars s
  | None => if i =? List.length argv then NullPointer else PastTheEnd
  end.

(** [std::string s = p;] needs a pointer to characters. *)
Definition std_string (p : c_str) : res string :=
  match p with
  | Chars s => Ok s
  | NullPointer => Undefined "std::string from a null pointer"
  | PastTheEnd => Undefined "read behind argv[argc]"
  end.

(** [std::cerr << p] needs a pointer to characters too. *)
Definition print_c_str (p : c_str) : res unit :=
  match p with
  | Chars _ => Ok tt
  | NullPointer => Undefined "operator<< on a null pointer"
  | PastTheEnd => Undefined "read behind argv[argc]"
  end.

(** [s.substr(pos)] for [pos <= s.size()]. *)
Definition substr_from (pos : nat) (s : string) : string :=
  substring pos (String.length s - pos) s.

Definition INT_MAX : Z := 2147483647.
Definition INT_MIN : Z := -2147483648.

Definition isspace (c : ascii) : bool :=
  let n := nat_of_ascii c in
  (n =? 32) || ((9 <=? n) && (n <=? 13)).

Definition digit_of (c : ascii) : option Z :=
  let n := nat_of_ascii c in
  if (48 <=? n) && (n <=? 57) then Some (Z.of_nat (n - 48)) else None.

Fixpoint skip_spaces (s : string) : string :=
  match s with
  | String c rest => if isspace c then skip_spaces rest else s
  | EmptyString => s
  end.

(** The longest run of decimal digits at the front of [s]; [None] when
    there is no digit. *)
Fixpoint read_digits (s : string) (acc : option Z) : option Z :=
  match s with
  | String c rest =>
      match digit_of c with
      | Some d =>
          read_digits rest
            (Some (10 * match acc with Some n => n | None => 0 end + d)%Z)
      | None => acc
      end
  | EmptyString => acc
  end.

(** [std::stoi]: white space, an optional sign, decimal digits; what
    follows is ignored.  It throws [std::invalid_argument] when there
    is no digit and [std::out_of_range] when the value is no [int]. *)
Definition stoi (s : string) : res Z :=
  let s1 := skip_spaces s in
  let '(negative, s2) :=
    match s1 with
    | String "-"%char rest => (true, rest)
    | String "+"%char rest => (false, rest)
    | _ => (false, s1)
    end in
  match read_digits s2 None with
  | None => Throw (invalid_argument "stoi")
  | Some n =>
      let v := if negative then (- n)%Z else n in
      if ((INT_MIN <=? v) && (v <=? INT_MAX))%Z then Ok v
      else Throw (out_of_range "stoi")
  end.

(** One round of the option loop of [parseConfig] (lines 542-552). *)
Definition parse_option (config : BenchmarkConfig) (arg : string)
  : res BenchmarkConfig :=
  if ((arg =? "--gpu") || (arg =? "gpu"))%string then
    Ok (mkConfig (model_type config) (task_type config)
          (model_path config) (labels_path config)
          true (thread_count config) (quantized config)
          (precision config))
  else if ((arg =? "--cpu") || (arg =? "cpu"))%string then
    Ok (mkConfig (model_type config) (task_type config)
          (model_path config) (labels_path config)
          false (thread_count config) (quantized config)
          (precision config))
  else if (substring 0 10 arg =? "--threads=")%string then
    n <- stoi (substr_from 10 arg) ;;
    Ok (mkConfig (model_type config) (task_type config)
          (model_path config) (labels_path config)
          (use_gpu config) n (quantized config) (precision config))
  else if (arg =? "--quantized")%string then
    Ok (mkConfig (model_type config) (task_type config)
          (model_path config) (labels_path config)
          (use_gpu config) (thread_count config) true "int8")
  else Ok config.

Fixpoint parse_options (config : BenchmarkConfig) (args : list string)
  : res BenchmarkConfig :=
  match args with
  | [] => Ok config
  | arg :: rest =>
      config' <- parse_option config arg ;;
      parse_options config' rest
  end.

(** [parseConfig]: [argc] is the length of [argv]. *)
Definition parseConfig (argv : list string) : res BenchmarkConfig :=
  let argc := List.length argv in
  if argc <? 6 then
    _ <- print_c_str (argv_at argv 0) ;;
    Throw (runtime_error "Invalid arguments")
  else
    model_type <- std_string (argv_at argv 2) ;;
    task_type <- std_string (argv_at argv 3) ;;
    model_path <- std_string (argv_at argv 4) ;;
    labels_path <- std_string (argv_at argv 5) ;;
    parse_options
      (mkConfig model_type task_type model_path labels_path
         false 1 false "fp32")
      (skipn 7 argv).

(** One round of the option loop of [main] (lines 667-672) on
    [(iterations, duration)]. *)
Definition main_option (opts : Z * Z) (arg : string) : res (Z * Z) :=
  if (substring 0 13 arg =? "--iterations=")%string then
    n <- stoi (substr_from 13 arg) ;; Ok (n, snd opts)
  else if (substring 0 11 arg =? "--duration=")%string then
    n <- stoi (substr_from 11 arg) ;; Ok (fst opts, n)
  else Ok opts.

Fixpoint main_options (opts : Z * Z) (args : list string) : res (Z * Z) :=
  match args with
  | [] => Ok opts
  | arg :: rest =>
      opts' <- main_option opts arg ;;
      main_options opts' rest
  end.

(** The benchmark [main] goes on to call. *)
Inductive benchmark_call : Type :=
| Comprehensive
| Image (config : BenchmarkConfig) (image_path : string) (iterations : Z)
| Video (config : BenchmarkConfig) (video_path : string)
| Camera (config : BenchmarkConfig) (camera_id : Z) (duration : Z).

(** What [main] does with its arguments: it returns an exit code, or
    it goes on to a benchmark, or its behaviour is undefined. *)
Inductive main_result : Type :=
| Return (code : Z)
| Calls (call : benchmark_call)
| UndefinedBehaviour (what : string).

(** The body of the [try] block up to the call of a benchmark. *)
Definition main_try (argv : list string) : res main_result :=
  let argc := List.length argv in
  if argc <? 2 then
    _ <- print_c_str (argv_at argv 0) ;;
    Ok (Return 1)
  else
    mode <- std_string (argv_at argv 1) ;;
    if (mode =? "comprehensive")%string then Ok (Calls Comprehensive)
    else
      config <- parseConfig argv ;;
      input_path <- std_string (argv_at argv 6) ;;
      opts <- main_options (100, 30)%Z (skipn 7 argv) ;;
      if (mode =? "image")%string then
        Ok (Calls (Image config input_path (fst opts)))
      else if (mode =? "video")%string then
        Ok (Calls (Video config input_path))
      else if (mode =? "camera")%string then
        camera_id <- stoi input_path ;;
        Ok (Calls (Camera config camera_id (snd opts)))
      else Ok (Return 1).

(** [main]: every [std::exception] is caught and turned into exit
    code 1 (lines 693-696). *)
Definition main (argv : list string) : main_result :=
  match main_try argv with
  | Ok r => r
  | Throw _ => Return 1
  | Undefined what => UndefinedBehaviour what
  end.

(** What every round of the option loop of [parseConfig] keeps:
    [precision] goes with [quantized], and [thread_count] is an
    [int]. *)
Definition config_ok (c : BenchmarkConfig) : Prop :=
  ((quantized c = true /\ precision c = "int8"%string) \/
   (quantized c = false /\ precision c = "fp32"%string)) /\
  (INT_MIN <= thread_count c <= INT_MAX)%Z.

(** The four spellings of the device options. *)
Definition device_options : list string :=
  ["--gpu"; "gpu"; "--cpu"; "cpu"]%string.

(** *** The processor monitor (lines 71-101) *)






(** *** The image benchmark (lines 190-293) *)

(** What is measured in one iteration of the image benchmark. *)
Record ImageSample : Type := mkImageSample
  { i_cpu_usage : Q;
    i_gpu_util : Q;
    i_gpu_mem : Q;
    infer_time : Q;
    i_total_time : Q;
    i_latency : Q }.

(** The fields of [PerformanceMetrics] as the image benchmark fills
    them; [frame_count] is the [int] it was given. *)
Record ImageMetrics : Type := mkImageMetrics
  { im_load_time_ms : Q;
    im_preprocess_avg_ms : stat;
    im_inference_avg_ms : stat;
    im_postprocess_avg_ms : stat;
    im_total_avg_ms : stat;
    im_fps : stat;
    im_memory_mb : Q;
    im_system_memory_used_mb : Q;
    im_latency_avg_ms : stat;
    im_latency_min_ms : stat;
    im_latency_max_ms : stat;
    im_cpu_usage_percent : stat;
    im_gpu_usage_percent : stat;
    im_gpu_memory_used_mb : stat;
    im_frame_count : Z;
    im_environment_type : string }.

(** [1000.0 / total_avg_ms]. *)
Definition fps_of (total_avg : stat) : stat :=
  match total_avg with
  | Value avg => divide 1000 avg
  | other => other
  end.

(** [sample i] is what the clocks and the monitor report in iteration
    [i]; the loop [for (int i = 0; i < iterations; ++i)] runs
    [Z.to_nat iterations] times. *)
Definition benchmark_image_comprehensive (config : BenchmarkConfig)
    (image_path : string) (image_empty : bool) (probe : Probe)
    (sample : nat -> ImageSample) (iterations : Z) : res ImageMetrics :=
  _ <- createDetector config ;;
  if image_empty then
    Throw (runtime_error ("Could not read image: " ++ image_path)%string)
  else
    let runs := map sample (seq 0 (Z.to_nat iterations)) in
    let preprocess_times := map (fun _ => 0%Q) runs in
    let inference_times := map infer_time runs in
    let postprocess_times := map (fun _ => 0%Q) runs in
    let total_times := map i_total_time runs in
    let latency_times := map i_latency runs in
    let total_avg := calc_avg total_times in
    let latency_minmax := calc_min_max latency_times in
    Ok {| im_load_time_ms := load_ms probe;
          im_preprocess_avg_ms := calc_avg preprocess_times;
          im_inference_avg_ms := calc_avg inference_times;
          im_postprocess_avg_ms := calc_avg postprocess_times;
          im_total_avg_ms := total_avg;
          im_fps := fps_of total_avg;
          im_memory_mb := (final_memory probe - initial_memory probe)%Q;
          im_system_memory_used_mb :=
            (final_sys_memory probe - initial_sys_memory probe)%Q;
          im_latency_avg_ms := calc_avg latency_times;
          im_latency_min_ms := fst latency_minmax;
          im_latency_max_ms := snd latency_minmax;
          im_cpu_usage_percent := calc_avg (map i_cpu_usage runs);
          im_gpu_usage_percent := calc_avg (map i_gpu_util runs);
          im_gpu_memory_used_mb := calc_avg (map i_gpu_mem runs);
          im_frame_count := iterations;
          im_environment_type := if use_gpu config then "GPU" else "CPU" |}.

(** *** The comprehensive mode (lines 576-656) *)

Definition test_configs : list (string * string * string) :=
  [("yolo11", "detection", "models/yolo11n.onnx");
   ("yolo8", "detection", "models/yolov8n.onnx");
   ("yolo11_quantized", "detection",
    "quantized_models/yolo11n_quantized.onnx");
   ("yolo8_quantized", "detection",
    "quantized_models/yolov8n_quantized.onnx")]%string.

Definition gpu_configs : list bool := [false; true].

Definition iteration_configs : list Z := [50; 100]%Z.

(** The configuration built in the innermost loop (lines 615-621). *)
Definition comprehensive_config (test : string * string * string)
    (gpu : bool) : BenchmarkConfig :=
  {| model_type := fst (fst test);
     task_type := snd (fst test);
     model_path := snd test;
     labels_path := "models/coco.names";
     use_gpu := gpu;
     thread_count := 1;
     quantized := false;
     precision := "fp32" |}.

(** The calls of the image benchmark, in order: the three nested
    loops, without the models whose file does not exist. *)
Definition comprehensive_calls (file_exists : string -> bool)
  : list (BenchmarkConfig * Z) :=
  flat_map
    (fun test =>
       if file_exists (snd test) then
         flat_map
           (fun gpu =>
              map (fun iterations =>
                     (comprehensive_config test gpu, iterations))
                iteration_configs)
           gpu_configs
       else [])
    test_configs.

(** The rows for the results file (each is written when the file can
    be opened for appending): one per benchmark that returned, none
    for a benchmark that threw (the exception is caught inside the
    loop, lines 623-647).  [bench config iterations] is the outcome of
    [benchmark_image_comprehensive] on [data/dog.jpg]. *)
Fixpoint comprehensive_rows
    (bench : BenchmarkConfig -> Z -> res ImageMetrics)
    (calls : list (BenchmarkConfig * Z))
  : res (list (BenchmarkConfig * ImageMetrics)) :=
  match calls with
  | [] => Ok []
  | (config, iterations) :: rest =>
      match bench config iterations with
      | Ok metrics =>
          rows <- comprehensive_rows bench rest ;;
          Ok ((config, metrics) :: rows)
      | Throw _ => comprehensive_rows bench rest
      | Undefined what => Undefined what
      end
  end.

(** The comprehensive mode once the [results] directory exists: the
    rows for the results file, and exit code 0. *)
Definition comprehensive (file_exists : string -> bool)
    (bench : BenchmarkConfig -> Z -> res ImageMetrics)
  : res (list (BenchmarkConfig * ImageMetrics) * Z) :=
  rows <- comprehensive_rows bench (comprehensive_calls file_exists) ;;
  Ok (rows, 0%Z).

End PerformanceAnalyzer.

(* ================================================================== *)
(** * Part II: properties                                              *)
(* ================================================================== *)

(** ** The bounded queue *)

Module QueueFacts.

Import BoundedThreadSafeQueue.

Section Facts.

Variable T : Type.
Implicit Types (q : t T) (x y : T).

Lemma enqueue_accepted x q q' :
  enqueue x q = Accepted q' ->
  finished q = false /\ size q <> capacity q /\
  q' = {| items := items q ++ [x];
          capacity := capacity q;
          finished := false |}.
Proof.
  unfold enqueue.
  destruct (finished q) eqn:Hf; [discriminate|].
  destruct (Nat.eqb_spec (size q) (capacity q)); [discriminate|].
  intros [= <-]. auto.
Qed.

Lemma enqueue_rejected x q :
  enqueue x q = Rejected <-> finished q = true.
Proof.
  unfold enqueue. destruct (finished q).
  - tauto.
  - destruct (size q =? capacity q); split; discriminate.
Qed.

Lemma enqueue_waits x q :
  enqueue x q = EnqueueWaits <->
  size q = capacity q /\ finished q = false.
Proof.
  unfold enqueue. destruct (finished q).
  - split; [discriminate | intros [_ H]; discriminate].
  - destruct (Nat.eqb_spec (size q) (capacity q)); split;
      try tauto; try discriminate.
Qed.

Lemma dequeue_item q x q' :
  dequeue q = Item x q' ->
  items q = x :: items q' /\ capacity q' = capacity q /\
  finished q' = finished q.
Proof.
  unfold dequeue. destruct (items q) as [|a rest] eqn:Hi.
  - destruct (finished q); discriminate.
  - intros [= <- <-]. auto.
Qed.

Lemma dequeue_closed q :
  dequeue q = Closed <-> size q = 0 /\ finished q = true.
Proof.
  unfold dequeue, size. destruct (items q) as [|a rest].
  - destruct (finished q); simpl; split;
      try tauto; try discriminate; intros [_ H]; discriminate.
  - simpl. split; [discriminate | intros [H _]; discriminate].
Qed.

Lemma dequeue_closed_items q :
  dequeue q = Closed -> items q = [] /\ finished q = true.
Proof.
  intros H. apply dequeue_closed in H as [Hs Hf]. split; auto.
  unfold size in Hs. now apply length_zero_iff_nil.
Qed.

Lemma dequeue_waits q :
  dequeue q = DequeueWaits <-> size q = 0 /\ finished q = false.
Proof.
  unfold dequeue, size. destruct (items q) as [|a rest].
  - destruct (finished q); simpl; split;
      try tauto; try discriminate; intros [_ H]; discriminate.
  - simpl. split; [discriminate | intros [H _]; discriminate].
Qed.

(** Draining a finished queue: the buffered items, then closed for
    ever. *)
Lemma drain_finished m : forall l K,
  dequeue_seq (length l + m) (mk l K true)
  = map (@Got T) l ++ repeat SawClosed m.
Proof.
  induction l as [|a l IH]; intros K; simpl.
  - induction m as [|m IHm]; simpl; [reflexivity|].
    now rewrite IHm.
  - now rewrite IH.
Qed.

Lemma enqueue_all_fits : forall (xs pre : list T) K,
  length pre + length xs <= K ->
  enqueue_all xs (mk pre K false) = Some (mk (pre ++ xs) K false).
Proof.
  induction xs as [|x xs IH]; intros pre K Hlen; simpl in *.
  - now rewrite app_nil_r.
  - unfold enqueue, size. simpl.
    destruct (Nat.eqb_spec (length pre) K) as [E|_]; [lia|].
    rewrite IH by (rewrite length_app; simpl; lia).
    now rewrite <- app_assoc.
Qed.

Lemma apply_op_size_le o q :
  size q <= capacity q ->
  size (apply_op o q) <= capacity (apply_op o q).
Proof.
  intros Hle. destruct o as [x| |]; simpl.
  - destruct (enqueue x q) as [q'| |] eqn:E; auto.
    apply enqueue_accepted in E as (_ & Hne & ->).
    unfold size in *. simpl. rewrite length_app. simpl. lia.
  - destruct (dequeue q) as [x q'| |] eqn:E; auto.
    apply dequeue_item in E as (Hi & Hc & _).
    unfold size in *. rewrite Hi in Hle. simpl in Hle. lia.
  - exact Hle.
Qed.

Lemma apply_op_capacity o q : capacity (apply_op o q) = capacity q.
Proof.
  destruct o as [x| |]; simpl; auto.
  - destruct (enqueue x q) as [q'| |] eqn:E; auto.
    now apply enqueue_accepted in E as (_ & _ & ->).
  - destruct (dequeue q) as [x q'| |] eqn:E; auto.
    now apply dequeue_item in E as (_ & Hc & _).
Qed.

Lemma apply_ops_size_le : forall os q,
  size q <= capacity q ->
  size (apply_ops os q) <= capacity q.
Proof.
  unfold apply_ops.
  induction os as [|o os IH]; intros q Hle; simpl; auto.
  rewrite <- (apply_op_capacity o q).
  apply IH. now apply apply_op_size_le.
Qed.

(** C4.  [dequeue] hands out the oldest buffered item whenever the
    buffer is not empty, whatever [finished] is; it reports closed
    exactly when the buffer is empty and [finished] is set, and waits
    exactly when the buffer is empty and [finished] is not set.  After
    [set_finished] a queue holding [B] items yields these [B] items, in
    order, to the next [B] calls, and closed to every call after that.
    [set_finished] keeps the buffer, and a second [set_finished]
    changes nothing. *)
Theorem C4_closed_signal q :
  (forall x rest K fin,
     dequeue (mk (x :: rest) K fin) = Item x (mk rest K fin)) /\
  (dequeue q = Closed <-> size q = 0 /\ finished q = true) /\
  (dequeue q = DequeueWaits <-> size q = 0 /\ finished q = false) /\
  (forall m,
     dequeue_seq (size q + m) (set_finished q)
     = map (@Got T) (items q) ++ repeat SawClosed m) /\
  items (set_finished q) = items q /\
  set_finished (set_finished q) = set_finished q.
Proof.
  split; [reflexivity|].
  split; [apply dequeue_closed|].
  split; [apply dequeue_waits|].
  split; [|split; reflexivity].
  intros m. destruct q as [l K fin]. unfold set_finished, size; simpl.
  apply drain_finished.
Qed.

End Facts.

End QueueFacts.

(** ** The camera pipeline *)

Module PipelineFacts.

Import CameraInference.
Import QueueFacts.

Section Facts.

Variables Frame Detection : Type.
Variable cap_read : nat -> option Frame.
Variable detect : Frame -> option (list Detection).
Variable waitKey_q : nat -> bool.

Local Abbreviation State := (State Frame Detection).
Local Abbreviation step := (step cap_read detect waitKey_q).
Local Abbreviation reachable := (reachable cap_read detect waitKey_q).
Local Abbreviation run := (run cap_read detect waitKey_q).
Local Abbreviation init := (init Frame Detection).

Implicit Types (s : State) (t : Thread).

(** *** Schedules and reachability *)

Lemma run_app : forall sched1 sched2 s,
  run (sched1 ++ sched2) s = run sched2 (run sched1 s).
Proof.
  induction sched1 as [|t sched1 IH]; intros sched2 s; simpl; auto.
  destruct (step t s); apply IH.
Qed.

Lemma run_reachable : forall sched s, reachable s -> reachable (run sched s).
Proof.
  induction sched as [|t sched IH]; intros s Hs; simpl; auto.
  destruct (step t s) as [s'|] eqn:E; auto.
  apply IH. eapply reachable_step; eauto.
Qed.

Lemma reachable_run s : reachable s -> exists sched, s = run sched init.
Proof.
  induction 1 as [|t s s' _ [sched ->] Hstep].
  - now exists [].
  - exists (sched ++ [t]). rewrite run_app. simpl. now rewrite Hstep.
Qed.

(** *** The invariant of the three loops *)

Lemma Inv_init : Inv init.
Proof.
  constructor; unfold max_queue_size; simpl; auto;
    try discriminate; try tauto.
  - now exists [].
  - now unfold quit_protocol.
Qed.

(** The result of a queue call, turned into facts about the queue. *)
Ltac queue_facts :=
  repeat match goal with
    | H : BQ.enqueue _ _ = BQ.Accepted _ |- _ =>
        apply enqueue_accepted in H; destruct H as (? & ? & ->)
    | H : BQ.enqueue _ _ = BQ.Rejected |- _ =>
        apply enqueue_rejected in H
    | H : BQ.dequeue ?q = BQ.Item _ ?q' |- _ =>
        apply dequeue_item in H; destruct H as (? & ? & ?)
    | H : BQ.dequeue _ = BQ.Closed |- _ =>
        apply dequeue_closed_items in H; destruct H as (? & ?)
    end.

(** Case analysis of one step: [H : step t s = Some s'] becomes one
    goal per enabled transition, with the post-state spelled out. *)
Ltac step_cases H :=
  unfold CameraInference.step in H;
  match type of H with
  | (if terminated ?s then _ else _) = _ =>
      destruct (terminated s) eqn:?; [discriminate|]
  end;
  lazymatch type of H with
  | match ?t with Producer => _ | Consumer => _ | Display => _ end = _ =>
      destruct t;
      [ unfold producer_step in H
      | unfold consumer_step in H
      | unfold display_step in H ]
  | _ => unfold producer_step, consumer_step, display_step in H
  end;
  match type of H with
  | match ?pc with _ => _ end = _ => destruct pc eqn:?
  end;
  try discriminate;
  repeat match type of H with
    | match ?e with _ => _ end = _ => destruct e eqn:?
    end;
  try discriminate;
  injection H as <-;
  queue_facts.

Ltac use_guards :=
  repeat match goal with
    | H : ~ False -> _ |- _ => specialize (H (fun f : False => f))
    | H : True -> _ |- _ => specialize (H I)
    | H : ?a = ?a -> _ |- _ => specialize (H eq_refl)
    | H : _ /\ _ |- _ => destruct H
    | H : BQ.items ?q = _ :: _ |- _ => rewrite H in *; clear H
    | H : BQ.finished ?q' = BQ.finished _ |- _ => rewrite H in *; clear H
    | H : BQ.capacity ?q' = BQ.capacity _ |- _ => rewrite H in *; clear H
    end.

Ltac split_tests :=
  repeat match goal with
    | |- context [match (match ?e with _ => _ end) with _ => _ end] =>
        destruct e eqn:?
    | |- context [match ?e with _ => _ end = _] => destruct e eqn:?
    | |- context [match ?e with _ => _ end] => destruct e eqn:?
    end;
  repeat match goal with
    | H : match ?e with _ => _ end = _ |- _ =>
        destruct e eqn:?; try discriminate H
    end.

Ltac lists :=
  simpl in *;
  rewrite ?map_app, ?length_app, <- ?app_assoc, ?app_nil_r,
    ?orb_false_r, ?orb_true_r in *;
  simpl in *.

Ltac close_goal :=
  solve [ intuition (subst; auto; try congruence; try lia)
        | eexists; intuition (subst; eauto; try congruence)
        | match goal with
          | H : ?l = _ |- ?l ++ _ = _ =>
              rewrite H; rewrite <- ?app_assoc; reflexivity
          | H : exists r, _ = _ ++ r |- exists r', _ = _ ++ r' =>
              let r := fresh "r" in
              destruct H as [r H]; rewrite H;
              eexists; rewrite <- ?app_assoc; reflexivity
          | H : ?l = _ ++ _ |- exists r', ?l ++ _ = _ ++ r' =>
              rewrite H; eexists; rewrite <- ?app_assoc; reflexivity
          | H : ?l = _ ++ _ |- exists r', ?l = _ ++ r' =>
              rewrite H; eexists; rewrite <- ?app_assoc; reflexivity
          | H : ?l = ?m |- exists r', ?l ++ ?x = ?m ++ r' =>
              rewrite H; eexists; reflexivity
          end ].

Lemma Inv_step t s s' : Inv s -> step t s = Some s' -> Inv s'.
Proof.
  intros I H.
  step_cases H.
  all: destruct I; constructor; simpl in *.
  all: unfold quit_protocol, consumer_left_loop, consumer_holds,
         display_holds, producer_done, BQ.size, max_queue_size in *;
       simpl in *.
  all: repeat match goal with
         | H : ?pc = _ |- _ =>
             match type of pc with
             | ProducerPC _ => rewrite H in *
             | ConsumerPC _ _ => rewrite H in *
             | DisplayPC _ _ => rewrite H in *
             end
         end.
  all: use_guards; lists.
  all: try close_goal.
  all: split_tests; use_guards; lists.
  all: close_goal.
Qed.

Lemma Inv_reachable s : reachable s -> Inv s.
Proof.
  induction 1 as [|t s s' _ IH Hstep].
  - apply Inv_init.
  - eapply Inv_step; eauto.
Qed.

(** *** What follows from the invariant *)

Lemma terminated_stuck s : terminated s = true -> forall sched, run sched s = s.
Proof.
  intros Ht. induction sched as [|t sched IH]; simpl; auto.
  unfold CameraInference.step. now rewrite Ht.
Qed.

Lemma all_done_pcs s :
  all_done s = true -> ppc s = PDone /\ cpc s = CDone /\ dpc s = DDone.
Proof.
  unfold all_done, producer_done, consumer_done, display_done.
  destruct (ppc s), (cpc s), (dpc s); simpl; try discriminate; auto.
Qed.

(** No deadlock: as long as the process is alive and some stage has
    not returned, some stage can take a step. *)
Lemma progress s :
  reachable s -> terminated s = false -> all_done s = false ->
  exists t s', step t s = Some s'.
Proof.
  intros Hr Ht Hnd. pose proof (Inv_reachable Hr) as I.
  assert (HP : ppc s <> PDone ->
               (forall frame, ppc s = PEnqueue frame ->
                  BQ.enqueue frame (frameQueue s) <> BQ.EnqueueWaits) ->
               exists t s', step t s = Some s').
  { intros Hp He. exists Producer.
    unfold CameraInference.step, producer_step. rewrite Ht.
    destruct (ppc s) as [| |frame| |] eqn:E; eauto; try congruence.
    destruct (BQ.enqueue frame (frameQueue s)) eqn:E'; eauto.
    now destruct (He frame eq_refl). }
  assert (HC : cpc s <> CDone ->
               (cpc s = CDequeue ->
                  BQ.dequeue (frameQueue s) <> BQ.DequeueWaits) ->
               (forall item, cpc s = CEnqueue item ->
                  BQ.enqueue item (processedQueue s) <> BQ.EnqueueWaits) ->
               exists t s', step t s = Some s').
  { intros Hc Hdq He. exists Consumer.
    unfold CameraInference.step, consumer_step. rewrite Ht.
    destruct (cpc s) as [| |frame|item| |] eqn:E; eauto; try congruence.
    - destruct (BQ.dequeue (frameQueue s)) eqn:E'; eauto.
      now destruct (Hdq eq_refl).
    - destruct (detect frame); eauto.
    - destruct (BQ.enqueue item (processedQueue s)) eqn:E'; eauto.
      now destruct (He item eq_refl). }
  assert (HD : dpc s <> DDone ->
               (dpc s = DDequeue ->
                  BQ.dequeue (processedQueue s) <> BQ.DequeueWaits) ->
               exists t s', step t s = Some s').
  { intros Hd Hdq. exists Display.
    unfold CameraInference.step, display_step. rewrite Ht.
    destruct (dpc s) as [| |item| | | | |] eqn:E; eauto; try congruence.
    destruct (BQ.dequeue (processedQueue s)) eqn:E'; eauto.
    now destruct (Hdq eq_refl). }
  pose proof (inv_capA I) as CA. pose proof (inv_capB I) as CB.
  unfold max_queue_size in CA, CB.
  (* a producer that finds [frameQueue] empty or finished moves *)
  assert (HP' : BQ.size (frameQueue s) = 0 \/
                BQ.finished (frameQueue s) = true ->
                ppc s <> PDone -> exists t s', step t s = Some s').
  { intros HA Hp. apply HP; auto.
    intros frame _ E. apply enqueue_waits in E as [E1 E2].
    destruct HA; congruence. }
  (* a consumer that finds [processedQueue] empty or finished moves,
     or else the producer does *)
  assert (HC' : BQ.size (processedQueue s) = 0 \/
                BQ.finished (processedQueue s) = true ->
                cpc s <> CDone -> exists t s', step t s = Some s').
  { intros HB Hc.
    destruct (BQ.dequeue (frameQueue s)) eqn:EA.
    1,2: apply HC; auto; try congruence;
         intros item _ E; apply enqueue_waits in E as [E1 E2];
         destruct HB; congruence.
    apply dequeue_waits in EA as [EA1 EA2].
    destruct (ppc s) eqn:Hp;
      try (apply HP'; auto; congruence).
    pose proof (inv_producer_exit I Hp). congruence. }
  destruct (dpc s) eqn:Hd; try (apply HD; congruence).
  - (* the display is in [dequeue] *)
    destruct (BQ.dequeue (processedQueue s)) eqn:EB;
      try (apply HD; congruence).
    apply dequeue_waits in EB as [EB1 EB2].
    apply HC'; auto.
    intros Hc. pose proof (inv_consumer_done I Hc). congruence.
  - (* the display has returned: [processedQueue] is finished *)
    pose proof (inv_quit I) as Hq. unfold quit_protocol in Hq.
    rewrite Hd in Hq. destruct Hq as [Hstop Hq].
    assert (HB : BQ.finished (processedQueue s) = true).
    { destruct (inv_display_exit I Hd) as [E|[_ E]]; auto.
      apply Hq. congruence. }
    destruct (cpc s) eqn:Hc; try (apply HC'; auto; congruence).
    (* the consumer has returned too *)
    apply HP'.
    + right. pose proof (inv_consumer_exit I) as Hexit.
      unfold consumer_left_loop in Hexit. rewrite Hc in Hexit.
      destruct (Hexit Logic.I) as [E|[_ E]]; auto.
      apply Hq. congruence.
    + intros Hp. unfold all_done, producer_done, consumer_done,
        display_done in Hnd.
      rewrite Hp, Hc, Hd in Hnd. discriminate.
Qed.

(** Without a quit request every accepted frame is shown or still on
    its way. *)
Lemma conservation s :
  reachable s -> stopFlag s = false ->
  enqueuedA s = map fst (shown s) ++ in_transit s.
Proof.
  intros Hr Hstop. pose proof (Inv_reachable Hr) as I.
  unfold in_transit.
  rewrite (inv_fifoA I), (inv_consumer_exact I Hstop), (inv_fifoB I),
    (inv_display I).
  now rewrite !map_app, <- !app_assoc.
Qed.

(** When all stages have returned and nobody asked to quit, nothing is
    left behind. *)
Lemma drained_at_exit s :
  reachable s -> stopFlag s = false -> all_done s = true ->
  BQ.items (frameQueue s) = [] /\ BQ.items (processedQueue s) = [] /\
  in_transit s = [].
Proof.
  intros Hr Hstop Hdone. pose proof (Inv_reachable Hr) as I.
  apply all_done_pcs in Hdone as (Hp & Hc & Hd).
  assert (HA : BQ.items (frameQueue s) = []).
  { pose proof (inv_consumer_exit I) as Hexit.
    unfold consumer_left_loop in Hexit. rewrite Hc in Hexit.
    destruct (Hexit Logic.I) as [E|[E _]]; congruence. }
  assert (HB : BQ.items (processedQueue s) = []).
  { destruct (inv_display_exit I Hd) as [E|[E _]]; congruence. }
  repeat split; auto.
  unfold in_transit, display_holds, consumer_holds.
  now rewrite HA, HB, Hc, Hd.
Qed.

Lemma delivered_at_exit s :
  reachable s -> stopFlag s = false -> all_done s = true ->
  dequeuedA s = enqueuedA s /\ dequeuedB s = enqueuedB s /\
  shown s = enqueuedB s /\ map fst (shown s) = enqueuedA s.
Proof.
  intros Hr Hstop Hdone.
  pose proof (conservation Hr Hstop) as Hcons.
  destruct (drained_at_exit Hr Hstop Hdone) as (HA & HB & Ht).
  pose proof (Inv_reachable Hr) as I.
  pose proof (inv_fifoA I) as FA. pose proof (inv_fifoB I) as FB.
  pose proof (inv_display I) as FD.
  apply all_done_pcs in Hdone as (Hp & Hc & Hd).
  unfold display_holds in FD. rewrite Hd in FD.
  rewrite HA, HB, ?app_nil_r in *.
  rewrite Ht, app_nil_r in Hcons.
  repeat split; congruence.
Qed.

(** Whatever happens, the display has shown a prefix of what the
    producer handed to [frameQueue]. *)
Lemma shown_prefix s :
  reachable s -> exists rest, enqueuedA s = map fst (shown s) ++ rest.
Proof.
  intros Hr. pose proof (Inv_reachable Hr) as I.
  destruct (inv_consumer_prefix I) as [rest Hrest].
  rewrite (inv_fifoA I), Hrest, (inv_fifoB I), (inv_display I).
  rewrite !map_app, <- !app_assoc. eauto.
Qed.

(** *** Steps of the other threads *)

Lemma quit_seen_stable t s s' :
  step t s = Some s' -> quit_seen s = true -> quit_seen s' = true.
Proof.
  intros H Hq. step_cases H; simpl; auto. now rewrite Hq.
Qed.

Lemma display_untouched t s s' :
  step t s = Some s' -> t <> Display ->
  dpc s' = dpc s /\ polls s' = polls s.
Proof.
  intros H Ht. step_cases H; simpl; auto; congruence.
Qed.

Lemma display_sees_q s s' :
  step Display s = Some s' -> dpc s = DWaitKey ->
  waitKey_q (polls s) = true -> quit_seen s' = true.
Proof.
  intros H Hd Hq. step_cases H; try congruence.
  simpl. rewrite Hq. apply orb_true_r.
Qed.

(** Once ['q'] is about to be seen or has been seen, it stays so. *)
Lemma quit_pending_run : forall sched s,
  (dpc s = DWaitKey /\ waitKey_q (polls s) = true) \/ quit_seen s = true ->
  let s' := run sched s in
  (dpc s' = DWaitKey /\ waitKey_q (polls s') = true) \/ quit_seen s' = true.
Proof.
  induction sched as [|t sched IH]; intros s Hs; simpl; auto.
  destruct (step t s) as [s1|] eqn:E; [|now apply IH].
  apply IH. destruct Hs as [[Hd Hq]|Hq].
  - destruct t; try (left;
      destruct (@display_untouched _ s s1 E) as [-> ->];
      [discriminate | now split]).
    right. eapply display_sees_q; eauto.
  - right. eapply quit_seen_stable; eauto.
Qed.

Lemma quit_branch_runs s :
  terminated s = false -> dpc s = DWaitKey -> waitKey_q (polls s) = true ->
  let s' := run (repeat Display 4) s in
  dpc s' = DDone /\ stopFlag s' = true /\
  BQ.finished (frameQueue s') = true /\
  BQ.finished (processedQueue s') = true.
Proof.
  intros Ht Hd Hq. destruct s; simpl in *; subst.
  unfold CameraInference.step, display_step; simpl.
  rewrite Hq; simpl. auto.
Qed.

(** C1.  When the display loop sees ['q'] in [cv::waitKey] it stores
    [true] in [stopFlag] and calls [set_finished] on [frameQueue] and
    on [processedQueue] before it leaves its loop: its next four steps
    do exactly that, and under every interleaving with the other two
    stages, once the display has left its loop the flag is set and both
    queues are finished.  A stage that was waiting in [enqueue] on
    either queue then gets [false] back instead of waiting: it moves on
    to its own [set_finished]. *)
Theorem C1_quit_closes_both_queues s sched :
  reachable s ->
  terminated s = false ->
  dpc s = DWaitKey ->
  waitKey_q (polls s) = true ->
  (let s' := run (repeat Display 4) s in
   dpc s' = DDone /\ stopFlag s' = true /\
   BQ.finished (frameQueue s') = true /\
   BQ.finished (processedQueue s') = true) /\
  (let s' := run sched s in
   dpc s' = DDone ->
   stopFlag s' = true /\
   BQ.finished (frameQueue s') = true /\
   BQ.finished (processedQueue s') = true /\
   (forall frame, BQ.enqueue frame (frameQueue s') = BQ.Rejected) /\
   (forall item, BQ.enqueue item (processedQueue s') = BQ.Rejected) /\
   (forall frame, ppc s' = PEnqueue frame -> terminated s' = false ->
      exists s'', step Producer s' = Some s'' /\ ppc s'' = PSetFinished) /\
   (forall item, cpc s' = CEnqueue item -> terminated s' = false ->
      exists s'', step Consumer s' = Some s'' /\ cpc s'' = CSetFinished)).
Proof.
  intros Hr Ht Hd Hq. split; [now apply quit_branch_runs|].
  intros s' Hdone.
  assert (Hseen : quit_seen s' = true).
  { destruct (@quit_pending_run sched s) as [[E _]|E]; auto.
    fold s' in E. congruence. }
  assert (Hr' : reachable s') by now apply run_reachable.
  pose proof (inv_quit (Inv_reachable Hr')) as Hquit.
  unfold quit_protocol in Hquit. rewrite Hdone in Hquit.
  destruct Hquit as [Hstop Hfin]. destruct (Hfin Hseen) as [HA HB].
  assert (RA : forall frame, BQ.enqueue frame (frameQueue s') = BQ.Rejected)
    by (intros; now apply enqueue_rejected).
  assert (RB : forall item, BQ.enqueue item (processedQueue s') = BQ.Rejected)
    by (intros; now apply enqueue_rejected).
  repeat split; auto; try congruence.
  - intros frame Hp Ht'. unfold CameraInference.step, producer_step.
    rewrite Ht', Hp, RA. eauto.
  - intros item Hc Ht'. unfold CameraInference.step, consumer_step.
    rewrite Ht', Hc, RB. eauto.
Qed.

(** C2 (as the code has it).  The consumer lambda has no handler
    around [detector.detect(frame)].  When the call throws, the
    exception leaves the thread function and the process is terminated:
    the frame is not offered to [processedQueue], nothing is recorded,
    and no stage takes another step.  When the call returns, the frame
    and its detections are what the consumer offers to
    [processedQueue] next. *)
Theorem C2_detect_error_ends_the_process s frame :
  terminated s = false ->
  cpc s = CDetect frame ->
  (detect frame = None ->
   exists s', step Consumer s = Some s' /\
     terminated s' = true /\
     cpc s' = CDetect frame /\
     enqueuedB s' = enqueuedB s /\
     processedQueue s' = processedQueue s /\
     shown s' = shown s /\
     (forall t, step t s' = None) /\
     (forall sched, run sched s' = s')) /\
  (forall detections, detect frame = Some detections ->
   exists s', step Consumer s = Some s' /\
     terminated s' = false /\
     cpc s' = CEnqueue (frame, detections)).
Proof.
  intros Ht Hc. split.
  - intros Hd. unfold CameraInference.step, consumer_step.
    rewrite Ht, Hc, Hd. eexists. split; [reflexivity|]. simpl.
    repeat split; auto.
    intros sched. now apply terminated_stuck.
  - intros detections Hd. unfold CameraInference.step, consumer_step.
    rewrite Ht, Hc, Hd. eexists. split; [reflexivity|]. simpl. auto.
Qed.

(** C3 (as the code has it).  As long as nobody has asked to quit,
    every frame accepted by [frameQueue] has been shown or is still on
    its way (held by the display, buffered in [processedQueue], held by
    the consumer, or buffered in [frameQueue]), in this order; and when
    all three stages have returned without a quit request, every
    accepted frame has been shown. *)
Theorem C3_frames_accounted_without_quit s :
  reachable s ->
  stopFlag s = false ->
  enqueuedA s = map fst (shown s) ++ in_transit s /\
  (all_done s = true ->
   in_transit s = [] /\
   forall frame, In frame (enqueuedA s) -> In frame (map fst (shown s))).
Proof.
  intros Hr Hstop. split; [now apply conservation|].
  intros Hdone.
  destruct (drained_at_exit Hr Hstop Hdone) as (_ & _ & Ht).
  destruct (delivered_at_exit Hr Hstop Hdone) as (_ & _ & _ & E).
  split; auto. intros frame. now rewrite E.
Qed.

(** C7.  Each queue hands its items over in the order in which it
    accepted them, each once: what was taken out is at any time the
    front part of what was put in, and what the display has shown is
    the front part of what the producer put into [frameQueue].  When
    all stages have returned and nobody asked to quit, the consumer of
    each queue has received exactly the [N] accepted items, in the same
    order, and the display has shown the frames in the order in which
    they left the producer. *)
Theorem C7_fifo_without_loss s :
  reachable s ->
  enqueuedA s = dequeuedA s ++ BQ.items (frameQueue s) /\
  enqueuedB s = dequeuedB s ++ BQ.items (processedQueue s) /\
  (exists rest, enqueuedA s = map fst (shown s) ++ rest) /\
  (NoDup (enqueuedA s) -> NoDup (dequeuedA s) /\ NoDup (map fst (shown s))) /\
  (stopFlag s = false -> all_done s = true ->
   dequeuedA s = enqueuedA s /\
   dequeuedB s = enqueuedB s /\
   length (dequeuedA s) = length (enqueuedA s) /\
   length (dequeuedB s) = length (enqueuedB s) /\
   map fst (shown s) = enqueuedA s).
Proof.
  intros Hr.
  pose proof (Inv_reachable Hr) as I.
  pose proof (shown_prefix Hr) as [rest Hrest].
  split; [apply I|]. split; [apply I|]. split; [eauto|]. split.
  - intros Hnd. split.
    + rewrite (inv_fifoA I) in Hnd. now apply NoDup_app_remove_r in Hnd.
    + rewrite Hrest in Hnd. now apply NoDup_app_remove_r in Hnd.
  - intros Hstop Hdone.
    destruct (delivered_at_exit Hr Hstop Hdone) as (EA & EB & _ & ES).
    rewrite EA, EB. auto.
Qed.

(** C8.  When the camera cannot be opened, [main] returns -1 to its
    caller; no queue is created, no stage is started, and no thread is
    spawned, whatever the devices would have done. *)
Theorem C8_camera_not_opened sched :
  main cap_read detect waitKey_q false sched
  = {| exit_code := Some (-1)%Z; spawned := []; final := None |} /\
  exit_code (main cap_read detect waitKey_q false sched) <> Some 0%Z /\
  spawned (main cap_read detect waitKey_q true sched)
  = [Producer; Consumer; Display].
Proof.
  unfold main; simpl. repeat split; discriminate.
Qed.

(** C5.  The buffer of a queue of capacity [K] never holds more than
    [K] items, whatever is done with the queue.  After [K] accepted
    items with no [dequeue] in between the buffer holds exactly these
    items and a further [enqueue] waits; it waits exactly as long as
    the buffer is full and the queue is not finished: after one
    [dequeue] it is accepted, after [set_finished] it returns [false].
    Both queues of [main] are created with capacity 2 and never hold
    more than 2 items. *)
Theorem C5_capacity_bound :
  (forall (T : Type) (K : nat) (os : list (BQ.op T)),
     BQ.size (BQ.apply_ops os (BQ.create T K)) <= K) /\
  (forall (T : Type) (xs : list T) (y : T),
     BQ.enqueue_all xs (BQ.create T (length xs))
     = Some (BQ.mk xs (length xs) false) /\
     BQ.enqueue y (BQ.mk xs (length xs) false) = BQ.EnqueueWaits) /\
  (forall (T : Type) (q : BQ.t T) (y : T),
     BQ.enqueue y q = BQ.EnqueueWaits <->
     BQ.size q = BQ.capacity q /\ BQ.finished q = false) /\
  (forall (T : Type) (x : T) (xs : list T) (y : T),
     let K := S (length xs) in
     BQ.dequeue (BQ.mk (x :: xs) K false) = BQ.Item x (BQ.mk xs K false) /\
     BQ.enqueue y (BQ.mk xs K false)
     = BQ.Accepted (BQ.mk (xs ++ [y]) K false) /\
     BQ.enqueue y (BQ.set_finished (BQ.mk (x :: xs) K false))
     = BQ.Rejected) /\
  (max_queue_size = 2 /\
   BQ.capacity (frameQueue init) = 2 /\
   BQ.capacity (processedQueue init) = 2) /\
  (forall sched,
     let s := run sched init in
     BQ.capacity (frameQueue s) = 2 /\
     BQ.capacity (processedQueue s) = 2 /\
     BQ.size (frameQueue s) <= 2 /\
     BQ.size (processedQueue s) <= 2).
Proof.
  split.
  { intros T K os.
    change K with (BQ.capacity (BQ.create T K)) at 2.
    apply apply_ops_size_le. unfold BQ.size. simpl. lia. }
  split.
  { intros T xs y. split.
    - apply (@enqueue_all_fits T xs [] (length xs)). simpl. lia.
    - apply enqueue_waits. auto. }
  split; [intros; apply enqueue_waits|].
  split.
  { intros T x xs y K. split; [reflexivity|]. split; [|reflexivity].
    unfold BQ.enqueue, BQ.size; simpl.
    destruct (Nat.eqb_spec (length xs) K) as [E|_]; [|reflexivity].
    unfold K in E. lia. }
  split; [repeat split|].
  intros sched s.
  assert (I : Inv s) by (apply Inv_reachable, run_reachable; constructor).
  pose proof (inv_capA I). pose proof (inv_capB I).
  pose proof (inv_sizeA I). pose proof (inv_sizeB I).
  unfold max_queue_size in *. auto.
Qed.

(** C6.  The producer runs its loop while [stopFlag] is false and hands
    every frame it read to [frameQueue]; it leaves the loop exactly
    when the flag is set, when [cap.read] fails, or when [enqueue]
    returns [false]; each of these exits leads to the one call of
    [frameQueue.set_finished()], which is always able to run.  So the
    producer has called it once when it has returned and not before,
    and from then on the consumer's [dequeue] never waits: it gets the
    buffered frames and then closed. *)
Theorem C6_producer_closes_frameQueue_once s :
  reachable s ->
  (forall s', step Producer s = Some s' ->
     match ppc s with
     | PLoop => ppc s' = if stopFlag s then PSetFinished else PRead
     | PRead =>
         ppc s' = match cap_read (reads s) with
                  | Some frame => PEnqueue frame
                  | None => PSetFinished
                  end
     | PEnqueue frame =>
         (BQ.enqueue frame (frameQueue s) = BQ.Rejected /\
          ppc s' = PSetFinished /\ enqueuedA s' = enqueuedA s) \/
         (BQ.enqueue frame (frameQueue s) = BQ.Accepted (frameQueue s') /\
          ppc s' = PLoop /\ enqueuedA s' = enqueuedA s ++ [frame])
     | PSetFinished =>
         ppc s' = PDone /\
         frameQueue s' = BQ.set_finished (frameQueue s) /\
         producer_finish_calls s' = S (producer_finish_calls s)
     | PDone => False
     end) /\
  (ppc s = PSetFinished -> terminated s = false ->
   exists s', step Producer s = Some s') /\
  producer_finish_calls s = (if producer_done s then 1 else 0) /\
  (ppc s = PDone ->
   BQ.finished (frameQueue s) = true /\
   BQ.dequeue (frameQueue s) <> BQ.DequeueWaits /\
   (cpc s = CDequeue -> terminated s = false ->
    exists s', step Consumer s = Some s') /\
   (forall m,
      BQ.dequeue_seq (BQ.size (frameQueue s) + m) (frameQueue s)
      = map (@BQ.Got Frame) (BQ.items (frameQueue s))
        ++ repeat BQ.SawClosed m)).
Proof.
  intros Hr. pose proof (Inv_reachable Hr) as I.
  split.
  { intros s' H. step_cases H;
      repeat match goal with
        | E : ppc s = _ |- _ => rewrite E
        end; simpl; auto. }
  split.
  { intros Hp Ht. unfold CameraInference.step, producer_step.
    rewrite Ht, Hp. eauto. }
  split; [apply I|].
  intros Hp. pose proof (inv_producer_exit I Hp) as Hfin.
  assert (Hnw : BQ.dequeue (frameQueue s) <> BQ.DequeueWaits).
  { intros E. apply dequeue_waits in E as [_ E]. congruence. }
  repeat split; auto.
  - intros Hc Ht. unfold CameraInference.step, consumer_step.
    rewrite Ht, Hc.
    destruct (BQ.dequeue (frameQueue s)); eauto. contradiction.
  - intros m. destruct (frameQueue s) as [l K fin]; simpl in *. subst fin.
    apply drain_finished.
Qed.

(** *** The devices *)

Local Abbreviation captured := (captured cap_read).
Local Abbreviation DeviceInv := (DeviceInv cap_read detect waitKey_q).
Local Abbreviation steps := (steps cap_read detect waitKey_q).
Local Abbreviation stuck := (stuck cap_read detect waitKey_q).

Lemma DeviceInv_init : DeviceInv init.
Proof.
  constructor; simpl; auto; try discriminate; try tauto; try lia.
  - intros _. split; auto. intros i Hi. lia.
  - now exists [].
  - intros [].
Qed.

Lemma DeviceInv_step t s s' :
  Inv s -> DeviceInv s -> step t s = Some s' -> DeviceInv s'.
Proof.
  intros I D H.
  pose proof (inv_quit I) as Hquit.
  pose proof (inv_finA I) as HfinA.
  clear I.
  step_cases H.
  all: destruct D; constructor; simpl in *.
  all: unfold quit_protocol, producer_left_loop, producer_holds in *;
       simpl in *.
  all: repeat match goal with
         | H : ?pc = _ |- _ =>
             match type of pc with
             | ProducerPC _ => rewrite H in *
             | ConsumerPC _ _ => rewrite H in *
             | DisplayPC _ _ => rewrite H in *
             end
         end.
  all: use_guards; lists.
  all: try close_goal.
  all: split_tests; use_guards; lists.
  all: try close_goal.
  - intros _. split; [congruence|]. intros i Hi.
    destruct (Nat.eq_dec i (reads s)) as [->|Hne]; [congruence|].
    match goal with
    | H : forall i, i < reads s -> _ |- _ => apply H; lia
    end.
  - intros item [= <-]. assumption.
  - apply Forall_app. split; [assumption|].
    constructor; [|constructor].
    match goal with
    | H : forall i, CEnqueue _ = CEnqueue i -> _ |- _ => now apply H
    end.
  - intros n Hn.
    destruct (Nat.eq_dec (S n) (polls s)) as [E|Hne].
    + match goal with
      | H : forall n, polls s = S n -> _ |- _ =>
          rewrite (H n (eq_sym E)); assumption
      end.
    + match goal with
      | H : forall n, S n < polls s -> _ |- _ => apply H; lia
      end.
  - intros n [= <-].
    match goal with
    | H : quit_seen s = false |- _ => now rewrite H
    end.
Qed.

Lemma DeviceInv_reachable s : reachable s -> DeviceInv s.
Proof.
  induction 1 as [|t s s' Hr IH Hstep].
  - apply DeviceInv_init.
  - eapply DeviceInv_step; eauto. now apply Inv_reachable.
Qed.


(** *** Work that is left *)

Lemma reads_bounded N s :
  cap_read N = None -> DeviceInv s -> ~ producer_left_loop s ->
  reads s <= N /\
  (forall frame, cap_read (reads s) = Some frame -> reads s < N).
Proof.
  intros HN D Hbusy. destruct (dev_reads_busy D Hbusy) as [_ Hsome].
  assert (reads s <= N).
  { destruct (Nat.le_gt_cases (reads s) N) as [|Hgt]; auto.
    now destruct (Hsome N Hgt). }
  split; auto. intros frame Hf.
  destruct (Nat.eq_dec (reads s) N) as [E|]; [|lia].
  rewrite E in Hf. congruence.
Qed.

Lemma fuel_step N t s s' :
  cap_read N = None -> Inv s -> DeviceInv s ->
  step t s = Some s' -> fuel N s' < fuel N s.
Proof.
  intros HN I D H.
  pose proof (@reads_bounded N s HN D) as Hreads.
  clear I D.
  step_cases H.
  all: unfold fuel, producer_fuel, consumer_fuel, display_fuel,
         upstream_of_display, upstream_of_consumer, producer_holds,
         consumer_holds, producer_left_loop, BQ.size in *; simpl in *.
  all: repeat match goal with
         | H : ?pc = _ |- _ =>
             match type of pc with
             | ProducerPC _ => rewrite H in *
             | ConsumerPC _ _ => rewrite H in *
             | DisplayPC _ _ => rewrite H in *
             | bool => rewrite H in *
             end
         end.
  all: use_guards; lists.
  all: try lia.
  all: repeat match goal with
         | |- context [if stopFlag ?s then _ else _] =>
             destruct (stopFlag s) eqn:?
         | |- context [match cap_read ?n with _ => _ end] =>
             destruct (cap_read n) eqn:?
         | |- context [if waitKey_q ?n then _ else _] =>
             destruct (waitKey_q n) eqn:?
         end; simpl in *.
  all: try match goal with
         | H : forall frame, Some ?f = Some frame -> _ |- _ =>
             specialize (H f eq_refl)
         end.
  all: lia.
Qed.

Lemma steps_fuel N :
  cap_read N = None ->
  forall sched s, reachable s ->
    steps sched s + fuel N (run sched s) <= fuel N s.
Proof.
  intros HN. induction sched as [|t sched IH]; intros s Hr; simpl.
  - lia.
  - destruct (step t s) as [s'|] eqn:E; [|now apply IH].
    assert (Hr' : reachable s') by (eapply reachable_step; eauto).
    pose proof (IH s' Hr').
    pose proof (@fuel_step N t s s' HN (Inv_reachable Hr)
                  (DeviceInv_reachable Hr) E).
    lia.
Qed.

Lemma stuck_run s : stuck s -> forall sched, run sched s = s.
Proof.
  intros Hs. induction sched as [|t sched IH]; simpl; auto.
  now rewrite Hs.
Qed.

(** One round of the three stages takes a step unless none can. *)
Lemma round_steps s :
  stuck s \/ 1 <= steps [Producer; Consumer; Display] s.
Proof.
  simpl.
  destruct (step Producer s) as [s1|] eqn:EP; [right; lia|].
  destruct (step Consumer s) as [s2|] eqn:EC; [right; lia|].
  destruct (step Display s) as [s3|] eqn:ED; [right; lia|].
  left. intros []; assumption.
Qed.

Lemma steps_app : forall sched1 sched2 s,
  steps (sched1 ++ sched2) s
  = steps sched1 s + steps sched2 (run sched1 s).
Proof.
  induction sched1 as [|t sched1 IH]; intros sched2 s; simpl; auto.
  destruct (step t s); simpl; now rewrite IH.
Qed.

Lemma round_robin_steps : forall k s,
  stuck (run (Scenario.round_robin k) s) \/
  k <= steps (Scenario.round_robin k) s.
Proof.
  induction k as [|k IH]; intros s.
  - right. simpl. lia.
  - change (Scenario.round_robin (S k))
      with ([Producer; Consumer; Display] ++ Scenario.round_robin k).
    rewrite run_app, steps_app.
    destruct (round_steps s) as [Hs|H1].
    + left. rewrite (stuck_run Hs). now rewrite (stuck_run Hs).
    + destruct (IH (run [Producer; Consumer; Display] s)) as [Hs|Hk].
      * now left.
      * right. lia.
Qed.

Lemma stuck_final s :
  reachable s -> stuck s -> terminated s = true \/ all_done s = true.
Proof.
  intros Hr Hs.
  destruct (terminated s) eqn:Ht; auto.
  destruct (all_done s) eqn:Hd; auto.
  destruct (progress Hr Ht Hd) as (t & s' & E).
  rewrite Hs in E. discriminate.
Qed.

Lemma final_stuck s :
  terminated s = true \/ all_done s = true -> stuck s.
Proof.
  intros [Ht|Hd] t; unfold CameraInference.step.
  - now rewrite Ht.
  - apply all_done_pcs in Hd as (Hp & Hc & Hd).
    destruct (terminated s); auto.
    destruct t; unfold producer_step, consumer_step, display_step;
      now rewrite ?Hp, ?Hc, ?Hd.
Qed.

Lemma fuel_init N : fuel N init = 11 * N + 12.
Proof.
  unfold fuel, producer_fuel, consumer_fuel, display_fuel,
    upstream_of_display, upstream_of_consumer, BQ.size. simpl. lia.
Qed.


(** *** Properties of the whole pipeline *)

(** X1.  The pipeline cannot deadlock: in a reachable state no stage
    can move exactly when the process was terminated or all three
    stages have returned.  In every other state some stage is able to
    take a step, whatever the queues hold. *)
Theorem X1_no_deadlock s :
  reachable s ->
  (stuck s <-> terminated s = true \/ all_done s = true).
Proof.
  intros Hr. split; [now apply stuck_final | apply final_stuck].
Qed.

Lemma work_bound N :
  cap_read N = None -> forall sched, steps sched init <= 11 * N + 12.
Proof.
  intros HN sched.
  pose proof (@steps_fuel N HN sched init (reachable_init _ _ _)) as H.
  rewrite fuel_init in H. lia.
Qed.

Lemma round_robin_ends N :
  cap_read N = None ->
  let s := run (Scenario.round_robin (11 * N + 13)) init in
  stuck s /\ (terminated s = true \/ all_done s = true).
Proof.
  intros HN s.
  assert (Hs : stuck s).
  { destruct (round_robin_steps (11 * N + 13) init) as [H|H]; auto.
    pose proof (work_bound HN (Scenario.round_robin (11 * N + 13))). lia. }
  split; auto. apply stuck_final; auto.
  apply run_reachable. constructor.
Qed.

(** X2.  With a source whose [N]-th read fails the pipeline does a
    bounded amount of work under every schedule: at most [11 * N + 12]
    steps are taken.  Under round-robin scheduling [11 * N + 13] rounds
    are enough to end: then no stage can move, and the process was
    terminated or all three stages have returned. *)
Theorem X2_bounded_work N sched :
  cap_read N = None ->
  steps sched init <= 11 * N + 12 /\
  (let s := run (Scenario.round_robin (11 * N + 13)) init in
   stuck s /\ (terminated s = true \/ all_done s = true)).
Proof.
  intros HN. split; [now apply work_bound | now apply round_robin_ends].
Qed.

Lemma stop_means_quit s : Inv s -> stopFlag s = true -> quit_seen s = true.
Proof.
  intros I Hstop. pose proof (inv_quit I) as Hq.
  unfold quit_protocol in Hq.
  destruct (dpc s); intuition congruence.
Qed.

Lemma stop_after_q s :
  reachable s -> stopFlag s = true ->
  exists n, polls s = S n /\ waitKey_q n = true.
Proof.
  intros Hr Hstop.
  pose proof (Inv_reachable Hr) as I.
  pose proof (DeviceInv_reachable Hr) as D.
  pose proof (stop_means_quit I Hstop) as Hq.
  destruct (polls s) as [|n] eqn:Hp.
  - rewrite (dev_polls_none D Hp) in Hq. discriminate.
  - exists n. split; auto. now rewrite (dev_polls_last D Hp).
Qed.

Lemma never_q_never_stop s :
  reachable s -> (forall n, waitKey_q n = false) -> stopFlag s = false.
Proof.
  intros Hr Hnever. destruct (stopFlag s) eqn:E; auto.
  destruct (stop_after_q Hr E) as (n & _ & Hn).
  rewrite Hnever in Hn. discriminate.
Qed.

(** X3.  The keyboard is polled once after every shown frame and at no
    other time; every poll before the last one did not see ['q'];
    [stopFlag] is set only after a poll that saw ['q'].  So when the
    [k]-th poll is the first to see ['q'], at most [k + 1] frames are
    ever shown, and when ['q'] is never pressed [stopFlag] stays
    false. *)
Theorem X3_keyboard s :
  reachable s ->
  length (shown s)
  = polls s + match dpc s with DWaitKey => 1 | _ => 0 end /\
  (forall n, S n < polls s -> waitKey_q n = false) /\
  (stopFlag s = true ->
   exists n, polls s = S n /\ waitKey_q n = true) /\
  (forall k, waitKey_q k = true -> length (shown s) <= S k) /\
  ((forall n, waitKey_q n = false) -> stopFlag s = false).
Proof.
  intros Hr.
  pose proof (Inv_reachable Hr) as I.
  pose proof (DeviceInv_reachable Hr) as D.
  split; [apply D|]. split; [apply D|].
  split; [now apply stop_after_q|]. split.
  - intros k Hk. rewrite (dev_polls_shown D).
    destruct (Nat.le_gt_cases (polls s) k) as [Hle|Hgt].
    + destruct (dpc s) eqn:Hd; lia.
    + destruct (Nat.eq_dec (polls s) (S k)) as [E|Hne].
      * destruct (dpc s) eqn:Hd; try lia.
        pose proof (dev_polls_last D E) as Hl.
        pose proof (inv_quit I) as Hq. unfold quit_protocol in Hq.
        rewrite Hd in Hq. destruct Hq as [Hq _]. congruence.
      * assert (Hlt : S k < polls s) by lia.
        pose proof (dev_polls_before D Hlt). congruence.
  - now apply never_q_never_stop.
Qed.

Lemma shown_in_enqueuedB s item :
  Inv s -> In item (shown s) -> In item (enqueuedB s).
Proof.
  intros I Hin. rewrite (inv_fifoB I), (inv_display I).
  apply in_or_app. left. apply in_or_app. now left.
Qed.

(** X4.  What the display shows comes from the devices: the shown
    frames are, in order and without a gap, the first frames that
    [cap.read] delivered, and every shown frame is shown with the
    detections that [detector.detect] returned for this very frame.
    The process is terminated only by a call of [detect] that throws:
    with a detector that never throws it is never terminated. *)
Theorem X4_shown_comes_from_devices s :
  reachable s ->
  (exists rest, captured (reads s) = map fst (shown s) ++ rest) /\
  (forall frame detections,
     In (frame, detections) (shown s) -> detect frame = Some detections) /\
  (terminated s = true ->
   exists frame, cpc s = CDetect frame /\ detect frame = None) /\
  ((forall frame, detect frame <> None) -> terminated s = false).
Proof.
  intros Hr.
  pose proof (Inv_reachable Hr) as I.
  pose proof (DeviceInv_reachable Hr) as D.
  split; [|split; [|split]].
  - destruct (dev_reads_prefix D) as [rest1 H1].
    destruct (shown_prefix Hr) as [rest2 H2].
    exists (rest2 ++ rest1). now rewrite H1, H2, app_assoc.
  - intros frame detections Hin.
    apply (@shown_in_enqueuedB s _ I) in Hin.
    pose proof (dev_detections D) as HF.
    rewrite Forall_forall in HF. apply (HF _ Hin).
  - apply D.
  - intros Hd. destruct (terminated s) eqn:Ht; auto.
    destruct (dev_terminated D Ht) as (frame & _ & Hf).
    now destruct (Hd frame).
Qed.

Lemma captured_length n :
  (forall i, i < n -> cap_read i <> None) -> length (captured n) = n.
Proof.
  induction n as [|n IH]; intros H; simpl; auto.
  rewrite length_app, IH by (intros; apply H; lia).
  destruct (cap_read n) eqn:E; simpl; [lia|].
  destruct (H n); auto.
Qed.

Lemma clean_exit s :
  reachable s -> stopFlag s = false -> all_done s = true ->
  exists n,
    reads s = S n /\
    cap_read n = None /\
    (forall i, i < n -> cap_read i <> None) /\
    map fst (shown s) = captured n /\
    length (shown s) = n /\
    terminated s = false.
Proof.
  intros Hr Hstop Hdone.
  pose proof (DeviceInv_reachable Hr) as D.
  destruct (delivered_at_exit Hr Hstop Hdone) as (_ & _ & _ & Hshown).
  pose proof (dev_reads_exact D Hstop) as Hcap.
  pose proof (dev_reads_exit D) as Hexit.
  destruct (all_done_pcs _ Hdone) as (Hp & Hc & _).
  unfold producer_left_loop, producer_holds in *. rewrite Hp in *.
  destruct (Hexit I Hstop) as (n & Hn & Hnone & Hsome).
  exists n. rewrite Hn in Hcap. simpl in Hcap.
  rewrite Hnone, !app_nil_r in Hcap.
  assert (E : map fst (shown s) = captured n) by congruence.
  split; [exact Hn|]. split; [exact Hnone|]. split; [exact Hsome|].
  split; [exact E|]. split.
  - pose proof (length_map fst (shown s)) as L.
    rewrite E, (captured_length Hsome) in L. symmetry. exact L.
  - destruct (terminated s) eqn:Ht; auto.
    destruct (dev_terminated D Ht) as (frame & Hf & _). congruence.
Qed.

(** X5.  A clean exit shows the whole stream: when all three stages
    have returned and nobody asked to quit, the producer stopped at
    the first failed read, and the display has shown exactly the
    frames read before it, all of them, in order; the process was not
    terminated. *)
Theorem X5_clean_exit_shows_the_stream s :
  reachable s -> stopFlag s = false -> all_done s = true ->
  exists n,
    reads s = S n /\
    cap_read n = None /\
    (forall i, i < n -> cap_read i <> None) /\
    map fst (shown s) = captured n /\
    length (shown s) = n /\
    terminated s = false.
Proof.
  apply clean_exit.
Qed.

(** X6.  Back-pressure bounds what is buffered: at any time at most 6
    frames are between [frameQueue] and the window (2 in each queue
    and 1 in the hands of the consumer and of the display), and as
    long as nobody asked to quit the producer has read at most 7
    frames more than the display has shown. *)
Theorem X6_back_pressure s :
  reachable s ->
  length (in_transit s) <= 6 /\
  (stopFlag s = false ->
   length (captured (reads s)) <= length (shown s) + 7).
Proof.
  intros Hr.
  pose proof (Inv_reachable Hr) as I.
  pose proof (DeviceInv_reachable Hr) as D.
  pose proof (inv_sizeA I) as SA. pose proof (inv_sizeB I) as SB.
  unfold BQ.size, max_queue_size in SA, SB.
  assert (Ht : length (in_transit s) <= 6).
  { unfold in_transit, display_holds, consumer_holds.
    rewrite !length_app, !length_map. unfold Processed in *.
    destruct (dpc s), (cpc s); simpl; lia. }
  split; auto. intros Hstop.
  rewrite (dev_reads_exact D Hstop), (conservation Hr Hstop).
  rewrite !length_app, length_map. unfold Processed in *.
  unfold producer_holds. destruct (ppc s); simpl; lia.
Qed.

Lemma step_one_way t s s' :
  step t s = Some s' ->
  (stopFlag s = true -> stopFlag s' = true) /\
  (BQ.finished (frameQueue s) = true ->
   BQ.finished (frameQueue s') = true) /\
  (BQ.finished (processedQueue s) = true ->
   BQ.finished (processedQueue s') = true) /\
  (producer_done s = true -> producer_done s' = true) /\
  (consumer_done s = true -> consumer_done s' = true) /\
  (display_done s = true -> display_done s' = true) /\
  (exists more, enqueuedA s' = enqueuedA s ++ more) /\
  (exists more, shown s' = shown s ++ more).
Proof.
  intros H. step_cases H.
  all: unfold producer_done, consumer_done, display_done; simpl.
  all: repeat match goal with
         | H : ?pc = _ |- _ =>
             match type of pc with
             | ProducerPC _ => rewrite H in *
             | ConsumerPC _ _ => rewrite H in *
             | DisplayPC _ _ => rewrite H in *
             end
         end.
  all: use_guards.
  all: repeat split; auto; try congruence; try discriminate.
  all: try (exists []; now rewrite app_nil_r).
  all: eauto.
Qed.

(** X7.  Nothing is taken back along a run: once [stopFlag] is set it
    stays set, a finished queue stays finished, a stage that has
    returned stays returned, and what was accepted by [frameQueue] and
    what was shown only grows at the end. *)
Theorem X7_one_way sched : forall s,
  let s' := run sched s in
  (stopFlag s = true -> stopFlag s' = true) /\
  (BQ.finished (frameQueue s) = true ->
   BQ.finished (frameQueue s') = true) /\
  (BQ.finished (processedQueue s) = true ->
   BQ.finished (processedQueue s') = true) /\
  (producer_done s = true -> producer_done s' = true) /\
  (consumer_done s = true -> consumer_done s' = true) /\
  (display_done s = true -> display_done s' = true) /\
  (exists more, enqueuedA s' = enqueuedA s ++ more) /\
  (exists more, shown s' = shown s ++ more).
Proof.
  induction sched as [|t sched IH]; intros s; simpl.
  - repeat split; auto; exists []; now rewrite app_nil_r.
  - destruct (step t s) as [s1|] eqn:E; [|apply IH].
    destruct (step_one_way _ _ E)
      as (H1 & H2 & H3 & H4 & H5 & H6 & [m7 H7] & [m8 H8]).
    destruct (IH s1)
      as (K1 & K2 & K3 & K4 & K5 & K6 & [n7 K7] & [n8 K8]).
    repeat split; auto.
    + exists (m7 ++ n7). now rewrite K7, H7, app_assoc.
    + exists (m8 ++ n8). now rewrite K8, H8, app_assoc.
Qed.

(** X8.  Normal drain, from start to end: when the source delivers
    [N] frames and then fails, the detector never throws and ['q'] is
    never pressed, round-robin scheduling brings all three stages to
    their return; the display has then shown exactly the [N] frames of
    the source, in order, each with the detections of the detector for
    it, and [main] returns 0. *)
Theorem X8_normal_drain N :
  cap_read N = None ->
  (forall i, i < N -> cap_read i <> None) ->
  (forall frame, detect frame <> None) ->
  (forall n, waitKey_q n = false) ->
  let sched := Scenario.round_robin (11 * N + 13) in
  let s := run sched init in
  all_done s = true /\
  stopFlag s = false /\
  map fst (shown s) = captured N /\
  length (shown s) = N /\
  (forall frame detections,
     In (frame, detections) (shown s) -> detect frame = Some detections) /\
  exit_code (main cap_read detect waitKey_q true sched) = Some 0%Z.
Proof.
  intros HN Hsome Hdet Hq sched s.
  assert (Hr : reachable s) by (apply run_reachable; constructor).
  pose proof (Inv_reachable Hr) as I.
  pose proof (DeviceInv_reachable Hr) as D.
  assert (Hstop : stopFlag s = false) by now apply never_q_never_stop.
  assert (Hdone : all_done s = true).
  { destruct (round_robin_ends HN) as [_ [Ht|Hd]]; auto.
    destruct (dev_terminated D Ht) as (frame & _ & Hf).
    now destruct (Hdet frame). }
  destruct (clean_exit Hr Hstop Hdone) as (n & Hn & Hnone & Hbefore & E & L & _).
  assert (HnN : n = N).
  { destruct (Nat.lt_trichotomy n N) as [Hlt|[Heq|Hgt]]; auto.
    - now destruct (Hsome n Hlt).
    - now destruct (Hbefore N Hgt). }
  rewrite HnN in E, L.
  split; [exact Hdone|]. split; [exact Hstop|]. split; [exact E|].
  split; [exact L|]. split.
  - intros frame detections Hin.
    apply (@shown_in_enqueuedB s _ I) in Hin.
    pose proof (dev_detections D) as HF.
    rewrite Forall_forall in HF. apply (HF _ Hin).
  - unfold main. simpl. fold sched. fold s. now rewrite Hdone.
Qed.

End Facts.


Import Scenario.

Lemma C1_quit_closes_both_queues_witness :
  reachable live_camera detect_nothing (q_at 0) at_waitKey /\
  terminated at_waitKey = false /\
  dpc at_waitKey = DWaitKey /\
  q_at 0 (polls at_waitKey) = true /\
  ppc at_waitKey = PEnqueue 4 /\
  BQ.enqueue 4 (frameQueue at_waitKey) = BQ.EnqueueWaits /\
  dpc quit_done = DDone /\
  stopFlag quit_done = true /\
  BQ.finished (frameQueue quit_done) = true /\
  BQ.finished (processedQueue quit_done) = true /\
  ppc quit_done = PDone.
Proof.
  assert (Hr : reachable live_camera detect_nothing (q_at 0) at_waitKey)
    by (apply run_reachable; constructor).
  destruct (@C1_quit_closes_both_queues nat nat live_camera detect_nothing
              (q_at 0) at_waitKey after_quit Hr eq_refl eq_refl eq_refl)
    as [_ H].
  destruct (H eq_refl) as (Hs & HA & HB & _).
  repeat split; try reflexivity; assumption.
Defined.

Lemma C2_detect_error_ends_the_process_witness :
  terminated before_throw = false /\
  cpc before_throw = CDetect 3 /\
  detect_throws_on 3 3 = None /\
  exists s',
    step (frames_up_to 5) (detect_throws_on 3) never_q Consumer before_throw
    = Some s' /\ terminated s' = true.
Proof.
  destruct (@C2_detect_error_ends_the_process nat nat (frames_up_to 5)
              (detect_throws_on 3) never_q before_throw 3 eq_refl eq_refl)
    as [H _].
  destruct (H eq_refl) as (s' & Hstep & Ht & _).
  repeat split; try reflexivity. exists s'. split; assumption.
Defined.

(** The run of the spec's detector scenario: [detect] throws on frame
    3 of 5.  Frames 1 and 2 are shown; then the process is gone with
    the consumer still at its [detect] call, frame 4 still buffered and
    frame 5 never read; no schedule makes any stage move again.  So the
    consumer does not go on with its loop after a failing [detect]. *)
Lemma C2_counterexample :
  terminated after_throw = true /\
  cpc after_throw = CDetect 3 /\
  map fst (shown after_throw) = [1; 2] /\
  BQ.items (frameQueue after_throw) = [4] /\
  all_done after_throw = false /\
  run (frames_up_to 5) (detect_throws_on 3) never_q
    (round_robin 100) after_throw = after_throw /\
  ~ (forall s frame,
       reachable (frames_up_to 5) (detect_throws_on 3) never_q s ->
       terminated s = false ->
       cpc s = CDetect frame ->
       detect_throws_on 3 frame = None ->
       exists s',
         step (frames_up_to 5) (detect_throws_on 3) never_q Consumer s
         = Some s' /\
         terminated s' = false /\ cpc s' = CLoop).
Proof.
  repeat split; try reflexivity.
  intros H.
  destruct (H before_throw 3) as (s' & Hstep & Ht & _);
    try reflexivity.
  - apply run_reachable. constructor.
  - vm_compute in Hstep. injection Hstep as <-. discriminate Ht.
Qed.

Lemma C3_frames_accounted_without_quit_witness :
  reachable (frames_up_to 5) detect_nothing never_q drained /\
  stopFlag drained = false /\
  all_done drained = true /\
  enqueuedA drained = [1; 2; 3; 4; 5] /\
  enqueuedA drained = map fst (shown drained) ++ in_transit drained /\
  in_transit drained = [].
Proof.
  assert (Hr : reachable (frames_up_to 5) detect_nothing never_q drained)
    by (apply run_reachable; constructor).
  destruct (@C3_frames_accounted_without_quit nat nat (frames_up_to 5)
              detect_nothing never_q drained Hr eq_refl) as [Hc Hd].
  destruct (Hd eq_refl) as [Ht _].
  repeat split; try reflexivity; assumption.
Defined.

(** The run of the spec's quit scenario: ['q'] is pressed after frame 1
    was shown, while frames 2 and 3 are buffered in [frameQueue].  All
    three stages return; frames 2 and 3 were accepted by [frameQueue],
    are still in its buffer, and were never shown.  The state of the
    program has no place where a dropped frame is written down. *)
Lemma C3_counterexample :
  all_done quit_done = true /\
  terminated quit_done = false /\
  enqueuedA quit_done = [1; 2; 3] /\
  map fst (shown quit_done) = [1] /\
  BQ.items (frameQueue quit_done) = [2; 3] /\
  ~ (forall s,
       reachable live_camera detect_nothing (q_at 0) s ->
       all_done s = true ->
       forall frame,
         In frame (enqueuedA s) -> In frame (map fst (shown s))).
Proof.
  repeat split; try reflexivity.
  intros H.
  assert (Hr : reachable live_camera detect_nothing (q_at 0) quit_done)
    by (do 2 apply run_reachable; constructor).
  specialize (H quit_done Hr eq_refl 2).
  vm_compute in H.
  destruct H as [E|[]]; [auto | discriminate E].
Qed.

Lemma C6_producer_closes_frameQueue_once_witness :
  reachable (frames_up_to 5) detect_nothing never_q drained /\
  ppc drained = PDone /\
  producer_finish_calls drained = 1 /\
  BQ.finished (frameQueue drained) = true.
Proof.
  assert (Hr : reachable (frames_up_to 5) detect_nothing never_q drained)
    by (apply run_reachable; constructor).
  destruct (@C6_producer_closes_frameQueue_once nat nat (frames_up_to 5)
              detect_nothing never_q drained Hr) as (_ & _ & Hn & Hd).
  destruct (Hd eq_refl) as (Hf & _).
  repeat split; try reflexivity; assumption.
Defined.

Lemma C7_fifo_without_loss_witness :
  reachable (frames_up_to 5) detect_nothing never_q drained /\
  stopFlag drained = false /\
  all_done drained = true /\
  dequeuedA drained = enqueuedA drained /\
  dequeuedB drained = enqueuedB drained /\
  map fst (shown drained) = [1; 2; 3; 4; 5].
Proof.
  assert (Hr : reachable (frames_up_to 5) detect_nothing never_q drained)
    by (apply run_reachable; constructor).
  destruct (@C7_fifo_without_loss nat nat (frames_up_to 5)
              detect_nothing never_q drained Hr) as (_ & _ & _ & _ & H).
  destruct (H eq_refl eq_refl) as (EA & EB & _ & _ & ES).
  repeat split; try reflexivity; assumption.
Defined.

Lemma X1_no_deadlock_witness :
  reachable (frames_up_to 5) detect_nothing never_q drained /\
  all_done drained = true /\
  stuck (frames_up_to 5) detect_nothing never_q drained.
Proof.
  assert (Hr : reachable (frames_up_to 5) detect_nothing never_q drained)
    by (apply run_reachable; constructor).
  split; [exact Hr|]. split; [reflexivity|].
  apply (proj2 (@X1_no_deadlock nat nat (frames_up_to 5) detect_nothing
                  never_q drained Hr)).
  right. reflexivity.
Defined.

Lemma X2_bounded_work_witness :
  frames_up_to 5 5 = None /\
  steps (frames_up_to 5) detect_nothing never_q (round_robin 40)
    (init nat nat) <= 67 /\
  stuck (frames_up_to 5) detect_nothing never_q
    (run (frames_up_to 5) detect_nothing never_q (round_robin 68)
       (init nat nat)).
Proof.
  destruct (@X2_bounded_work nat nat (frames_up_to 5) detect_nothing
              never_q 5 (round_robin 40) eq_refl) as [Hsteps [Hstuck _]].
  split; [reflexivity|]. split; [exact Hsteps | exact Hstuck].
Defined.

Lemma X3_keyboard_witness :
  reachable live_camera detect_nothing (q_at 0) quit_done /\
  q_at 0 0 = true /\
  stopFlag quit_done = true /\
  length (shown quit_done) <= 1.
Proof.
  assert (Hr : reachable live_camera detect_nothing (q_at 0) quit_done)
    by (do 2 apply run_reachable; constructor).
  destruct (@X3_keyboard nat nat live_camera detect_nothing (q_at 0)
              quit_done Hr) as (_ & _ & _ & Hk & _).
  split; [exact Hr|]. split; [reflexivity|]. split; [reflexivity|].
  exact (Hk 0 eq_refl).
Defined.

Lemma X4_shown_comes_from_devices_witness :
  reachable (frames_up_to 5) detect_nothing never_q drained /\
  In (3, []) (shown drained) /\
  detect_nothing 3 = Some [].
Proof.
  assert (Hr : reachable (frames_up_to 5) detect_nothing never_q drained)
    by (apply run_reachable; constructor).
  destruct (@X4_shown_comes_from_devices nat nat (frames_up_to 5)
              detect_nothing never_q drained Hr) as (_ & Hd & _).
  assert (Hin : In (3, @nil nat) (shown drained))
    by (vm_compute; do 2 right; left; reflexivity).
  split; [exact Hr|]. split; [exact Hin|]. exact (Hd 3 [] Hin).
Defined.

Lemma X5_clean_exit_shows_the_stream_witness :
  reachable (frames_up_to 5) detect_nothing never_q drained /\
  stopFlag drained = false /\
  all_done drained = true /\
  exists n, reads drained = S n /\ length (shown drained) = n.
Proof.
  assert (Hr : reachable (frames_up_to 5) detect_nothing never_q drained)
    by (apply run_reachable; constructor).
  destruct (@X5_clean_exit_shows_the_stream nat nat (frames_up_to 5)
              detect_nothing never_q drained Hr eq_refl eq_refl)
    as (n & Hn & _ & _ & _ & Hl & _).
  split; [exact Hr|]. split; [reflexivity|]. split; [reflexivity|].
  exists n. split; assumption.
Defined.

Lemma X6_back_pressure_witness :
  reachable live_camera detect_nothing (q_at 0) at_waitKey /\
  stopFlag at_waitKey = false /\
  length (in_transit at_waitKey) <= 6 /\
  length (captured live_camera (reads at_waitKey))
  <= length (shown at_waitKey) + 7.
Proof.
  assert (Hr : reachable live_camera detect_nothing (q_at 0) at_waitKey)
    by (apply run_reachable; constructor).
  destruct (@X6_back_pressure nat nat live_camera detect_nothing (q_at 0)
              at_waitKey Hr) as [Ht Hc].
  split; [exact Hr|]. split; [reflexivity|].
  split; [exact Ht | exact (Hc eq_refl)].
Defined.

Lemma X7_one_way_witness :
  stopFlag quit_done = true /\
  stopFlag (run live_camera detect_nothing (q_at 0) (round_robin 3)
              quit_done) = true.
Proof.
  destruct (@X7_one_way nat nat live_camera detect_nothing (q_at 0)
              (round_robin 3) quit_done) as [H _].
  split; [reflexivity | exact (H eq_refl)].
Defined.

Lemma X8_normal_drain_witness :
  frames_up_to 5 5 = None /\
  (forall i, i < 5 -> frames_up_to 5 i <> None) /\
  (forall frame, detect_nothing frame <> None) /\
  (forall n, never_q n = false) /\
  all_done (run (frames_up_to 5) detect_nothing never_q (round_robin 68)
              (init nat nat)) = true /\
  exit_code (main (frames_up_to 5) detect_nothing never_q true
               (round_robin 68)) = Some 0%Z.
Proof.
  assert (Hsome : forall i, i < 5 -> frames_up_to 5 i <> None).
  { intros i Hi. unfold frames_up_to.
    destruct (Nat.ltb_spec i 5); [discriminate | lia]. }
  assert (Hdet : forall frame : nat, detect_nothing frame <> None)
    by discriminate.
  assert (Hq : forall n, never_q n = false) by reflexivity.
  destruct (@X8_normal_drain nat nat (frames_up_to 5) detect_nothing
              never_q 5 eq_refl Hsome Hdet Hq)
    as (Hdone & _ & _ & _ & _ & Hexit).
  repeat split; try assumption; reflexivity.
Defined.

End PipelineFacts.

(** ** The benchmark tool *)

Module AnalyzerFacts.

Import String Ascii.
Import PerformanceAnalyzer.

(** *** Statistics *)

Lemma calc_avg_undefined values :
  calc_avg values = DivisionByZero <-> values = [].
Proof.
  unfold calc_avg, divide_by_size.
  destruct values as [|v rest]; simpl; split;
    try reflexivity; discriminate.
Qed.

Lemma minmax_scan_bound : forall rest i mn mx,
  fst mn < i -> fst mx < i ->
  fst (minmax_scan rest i mn mx) < i + List.length rest /\
  snd (minmax_scan rest i mn mx) < i + List.length rest.
Proof.
  induction rest as [|v rest IH]; intros i mn mx Hmn Hmx; simpl.
  - lia.
  - replace (i + S (List.length rest)) with (S i + List.length rest) by lia.
    apply IH.
    + destruct (Qle_bool (snd mn) v); simpl; lia.
    + destruct (Qle_bool (snd mx) v); simpl; lia.
Qed.

Lemma minmax_element_bound values :
  values <> [] ->
  fst (minmax_element values) < List.length values /\
  snd (minmax_element values) < List.length values.
Proof.
  destruct values as [|v rest]; [congruence|]. intros _.
  unfold minmax_element.
  change (List.length (v :: rest)) with (1 + List.length rest).
  apply minmax_scan_bound; simpl; lia.
Qed.

Lemma deref_in_range values it :
  it < List.length values -> exists v, deref values it = Value v.
Proof.
  intros H. unfold deref.
  destruct (nth_error values it) as [v|] eqn:E; eauto.
  apply nth_error_None in E. lia.
Qed.

Lemma calc_min_max_defined values :
  values <> [] ->
  exists lo hi, calc_min_max values = (Value lo, Value hi).
Proof.
  intros H. destruct (minmax_element_bound H) as [H1 H2].
  destruct (deref_in_range _ H1) as [lo Hlo].
  destruct (deref_in_range _ H2) as [hi Hhi].
  exists lo, hi. unfold calc_min_max. simpl. now rewrite Hlo, Hhi.
Qed.

Lemma video_frames_none reads :
  video_frames reads = [] <->
  reads = [] \/ exists rest, reads = None :: rest.
Proof.
  destruct reads as [|[sample|] rest]; simpl; split; auto.
  - discriminate.
  - intros [E|[r E]]; discriminate.
  - eauto.
Qed.

Lemma camera_frames_none reads :
  camera_frames reads = [] <-> Forall (fun r => r = None) reads.
Proof.
  induction reads as [|[sample|] rest IH]; simpl; split; auto.
  - discriminate.
  - intros H. inversion H; discriminate.
  - intros H. constructor; auto. now apply IH.
  - intros H. inversion H; subst. now apply IH.
Qed.

Lemma statistics_without_frames config probe :
  let m := statistics config probe [] in
  frame_count m = 0 /\
  total_avg_ms m = DivisionByZero /\
  latency_avg_ms m = DivisionByZero /\
  cpu_usage_percent m = DivisionByZero /\
  gpu_usage_percent m = DivisionByZero /\
  gpu_memory_used_mb m = DivisionByZero /\
  latency_min_ms m = DerefEnd /\
  latency_max_ms m = DerefEnd.
Proof.
  simpl. repeat split.
Qed.

(** C9.  In the video and in the camera benchmark, when the loop
    processes no frame (the first read of the video fails, or every
    read of the camera made before the end of the duration fails),
    the benchmark neither throws nor returns defined statistics: with
    [frame_count == 0] every average is computed by a division by
    [values.size() == 0], and the latency minimum and maximum are read
    through the end iterator that [std::minmax_element] returns for an
    empty range.  With at least one processed frame the averages and
    the minimum and maximum are defined. *)
Theorem C9_no_frames_no_defined_statistics
    config video_path camera_id probe reads :
  createDetector config = Ok tt ->
  (reads = [] \/ (exists rest, reads = None :: rest) ->
   exists m,
     benchmark_video_comprehensive config video_path true probe reads
     = Ok m /\
     frame_count m = 0 /\
     total_avg_ms m = DivisionByZero /\
     latency_avg_ms m = DivisionByZero /\
     cpu_usage_percent m = DivisionByZero /\
     gpu_usage_percent m = DivisionByZero /\
     gpu_memory_used_mb m = DivisionByZero /\
     latency_min_ms m = DerefEnd /\
     latency_max_ms m = DerefEnd) /\
  (Forall (fun r => r = None) reads ->
   exists m,
     benchmark_camera_comprehensive config camera_id true probe reads
     = Ok m /\
     frame_count m = 0 /\
     total_avg_ms m = DivisionByZero /\
     latency_avg_ms m = DivisionByZero /\
     cpu_usage_percent m = DivisionByZero /\
     gpu_usage_percent m = DivisionByZero /\
     gpu_memory_used_mb m = DivisionByZero /\
     latency_min_ms m = DerefEnd /\
     latency_max_ms m = DerefEnd) /\
  (forall frames, frames <> [] ->
   let m := statistics config probe frames in
   exists avg lo hi,
     total_avg_ms m = Value avg /\
     latency_min_ms m = Value lo /\ latency_max_ms m = Value hi).
Proof.
  intros Hd. split; [|split].
  - intros H. apply video_frames_none in H.
    unfold benchmark_video_comprehensive. rewrite Hd, H. simpl.
    eexists. split; [reflexivity|]. apply statistics_without_frames.
  - intros H. apply camera_frames_none in H.
    unfold benchmark_camera_comprehensive. rewrite Hd, H. simpl.
    eexists. split; [reflexivity|]. apply statistics_without_frames.
  - intros frames Hne m.
    assert (Hl : map latency frames <> [])
      by (destruct frames; [congruence | discriminate]).
    destruct (calc_min_max_defined Hl) as (lo & hi & E).
    destruct frames as [|f frames]; [congruence|].
    eexists. exists lo, hi. unfold m, statistics. rewrite E. simpl.
    repeat split.
Qed.

Lemma C9_no_frames_no_defined_statistics_witness :
  let config := mkConfig "yolo11" "detection" "m.onnx" "coco.names"
                  false 1 false "fp32" in
  let probe := mkProbe 0 0 0 0 0 1 in
  createDetector config = Ok tt /\
  exists m,
    benchmark_video_comprehensive config "empty.mp4" true probe [None]
    = Ok m /\ total_avg_ms m = DivisionByZero /\
    latency_min_ms m = DerefEnd.
Proof.
  intros config probe. split; [reflexivity|].
  destruct (@C9_no_frames_no_defined_statistics config "empty.mp4" 0%Z
              probe [None] eq_refl) as [H _].
  destruct H as (m & Hm & _ & Ha & _ & _ & _ & _ & Hlo & _).
  - right. now exists [].
  - exists m. auto.
Defined.

(** *** The command line *)

Lemma stoi_defined s w : stoi s <> Undefined w.
Proof.
  unfold stoi.
  destruct (skip_spaces s) as [|c rest]; simpl.
  - discriminate.
  - destruct (match String c rest with
              | String "-"%char rest0 => (true, rest0)
              | String "+"%char rest0 => (false, rest0)
              | _ => (false, String c rest)
              end) as [negative s2].
    destruct (read_digits s2 None) as [n|]; [|discriminate].
    destruct (_ && _); discriminate.
Qed.

Lemma parse_option_defined config arg w :
  parse_option config arg <> Undefined w.
Proof.
  unfold parse_option.
  repeat match goal with
    | |- context [if ?b then _ else _] => destruct b
    end; try discriminate.
  unfold bind.
  destruct (stoi (substr_from 10 arg)) as [n|e|w'] eqn:E;
    try discriminate.
  now apply stoi_defined in E.
Qed.

Lemma parse_options_defined : forall args config w,
  parse_options config args <> Undefined w.
Proof.
  induction args as [|arg rest IH]; intros config w; simpl.
  - discriminate.
  - unfold bind.
    destruct (parse_option config arg) as [c|e|w'] eqn:E;
      try discriminate; auto.
    now apply parse_option_defined in E.
Qed.

Lemma main_option_defined opts arg w :
  main_option opts arg <> Undefined w.
Proof.
  unfold main_option, bind.
  repeat match goal with
    | |- context [if ?b then _ else _] => destruct b
    end; try discriminate.
  - destruct (stoi (substr_from 13 arg)) as [n|e|w'] eqn:E;
      try discriminate.
    now apply stoi_defined in E.
  - destruct (stoi (substr_from 11 arg)) as [n|e|w'] eqn:E;
      try discriminate.
    now apply stoi_defined in E.
Qed.

Lemma main_options_defined : forall args opts w,
  main_options opts args <> Undefined w.
Proof.
  induction args as [|arg rest IH]; intros opts w; simpl.
  - discriminate.
  - unfold bind.
    destruct (main_option opts arg) as [o|e|w'] eqn:E;
      try discriminate; auto.
    now apply main_option_defined in E.
Qed.

Lemma mode_test a0 a1 rest :
  argv_at (a0 :: a1 :: rest) 1 <> Chars "comprehensive" ->
  (a1 =? "comprehensive")%string = false.
Proof.
  simpl. intros H. apply String.eqb_neq. intros E. apply H. now rewrite E.
Qed.

(** With seven or more arguments nothing in [main] is undefined. *)
Lemma main_defined_from_seven argv w :
  7 <= List.length argv -> main argv <> UndefinedBehaviour w.
Proof.
  intros Hlen.
  destruct argv as [|a0 [|a1 [|a2 [|a3 [|a4 [|a5 [|a6 rest]]]]]]];
    simpl in Hlen; try lia.
  unfold main, main_try, parseConfig.
  cbn [List.length Nat.ltb Nat.leb argv_at nth_error std_string bind skipn].
  destruct (a1 =? "comprehensive")%string; [discriminate|].
  destruct (parse_options _ rest) as [config|e|w'] eqn:E;
    [|discriminate|now apply parse_options_defined in E].
  destruct (main_options _ rest) as [opts|e|w'] eqn:E';
    [|discriminate|now apply main_options_defined in E'].
  destruct (a1 =? "image")%string; [discriminate|].
  destruct (a1 =? "video")%string; [discriminate|].
  destruct (a1 =? "camera")%string; [|discriminate].
  destruct (stoi a6) as [n|e|w'] eqn:E''; try discriminate.
  now apply stoi_defined in E''.
Qed.

(** C10.  In the single-benchmark modes [parseConfig] turns down an
    invocation only when [argc < 6]: with six arguments it returns a
    configuration (and with more it never reports invalid arguments).
    [main] then reads [argv[6]] without a test of its own; with
    [argc == 6] this is [argv[argc]], the null pointer, from which a
    [std::string] is constructed.  So among the invocations with a
    mode of their own the behaviour of [main] is undefined exactly for
    [argc == 6]: what [main] needs is [argc >= 7], one more than what
    [parseConfig] checks. *)
Theorem C10_input_path_needs_seven_arguments argv :
  (1 <= List.length argv < 6 ->
   parseConfig argv = Throw (runtime_error "Invalid arguments")) /\
  (List.length argv = 6 -> exists config, parseConfig argv = Ok config) /\
  (6 <= List.length argv ->
   parseConfig argv <> Throw (runtime_error "Invalid arguments") /\
   forall w, parseConfig argv <> Undefined w) /\
  (argv_at argv 1 <> Chars "comprehensive" ->
   (List.length argv = 6 ->
    argv_at argv 6 = NullPointer /\
    main argv = UndefinedBehaviour "std::string from a null pointer") /\
   (2 <= List.length argv ->
    ((exists w, main argv = UndefinedBehaviour w) <->
     List.length argv = 6))).
Proof.
  split; [|split; [|split]].
  - intros [H1 H6].
    destruct argv as [|a0 [|a1 [|a2 [|a3 [|a4 [|a5 rest]]]]]];
      simpl in *; try lia; reflexivity.
  - intros H6.
    destruct argv as [|a0 [|a1 [|a2 [|a3 [|a4 [|a5 [|a6 rest]]]]]]];
      simpl in H6; try lia.
    eexists. reflexivity.
  - intros H6.
    destruct argv as [|a0 [|a1 [|a2 [|a3 [|a4 [|a5 rest]]]]]];
      simpl in H6; try lia.
    unfold parseConfig.
    cbn [List.length Nat.ltb Nat.leb argv_at nth_error std_string bind].
    split.
    + clear H6. generalize (mkConfig a2 a3 a4 a5 false 1 false "fp32").
      generalize (skipn 7 (a0 :: a1 :: a2 :: a3 :: a4 :: a5 :: rest)).
      induction l as [|arg l IH]; intros config; simpl.
      * discriminate.
      * unfold bind. destruct (parse_option config arg) as [c|e|w] eqn:E;
          try discriminate; auto.
        intros [= ->]. revert E. unfold parse_option.
        repeat match goal with
          | |- context [if ?b then _ else _] => destruct b
          end; try discriminate.
        unfold bind, stoi.
        destruct (skip_spaces _) as [|c r]; simpl; try discriminate.
        destruct (match String c r with
                  | String "-"%char rest0 => (true, rest0)
                  | String "+"%char rest0 => (false, rest0)
                  | _ => (false, String c r)
                  end) as [negative s2].
        destruct (read_digits s2 None) as [n|]; [|discriminate].
        destruct (_ && _); discriminate.
    + intros w. apply parse_options_defined.
  - intros Hmode. split.
    + intros H6.
      destruct argv as [|a0 [|a1 [|a2 [|a3 [|a4 [|a5 [|a6 rest]]]]]]];
        simpl in H6; try lia.
      split; [reflexivity|].
      apply mode_test in Hmode.
      unfold main, main_try. simpl. now rewrite Hmode.
    + intros H2. split.
      * intros [w Hw].
        destruct (Nat.lt_ge_cases (List.length argv) 6) as [Hlt|Hge].
        -- exfalso.
           destruct argv as [|a0 [|a1 [|a2 [|a3 [|a4 [|a5 rest]]]]]];
             simpl in *; try lia;
             apply mode_test in Hmode;
             unfold main, main_try in Hw; simpl in Hw;
             rewrite Hmode in Hw; discriminate.
        -- destruct (Nat.eq_dec (List.length argv) 6) as [E|Hne]; auto.
           exfalso. apply (@main_defined_from_seven argv w); [lia|auto].
      * intros H6.
        destruct argv as [|a0 [|a1 [|a2 [|a3 [|a4 [|a5 [|a6 rest]]]]]]];
          simpl in H6; try lia.
        apply mode_test in Hmode.
        eexists. unfold main, main_try. simpl. rewrite Hmode. reflexivity.
Qed.

Lemma C10_input_path_needs_seven_arguments_witness :
  let argv := ["analyzer"; "video"; "yolo11"; "detection";
               "yolo11n.onnx"; "coco.names"]%string in
  List.length argv = 6 /\
  argv_at argv 1 <> Chars "comprehensive" /\
  (exists config, parseConfig argv = Ok config) /\
  main argv = UndefinedBehaviour "std::string from a null pointer" /\
  main (argv ++ ["dogs.mp4"%string])
  = Calls (Video (mkConfig "yolo11" "detection" "yolo11n.onnx"
                    "coco.names" false 1 false "fp32") "dogs.mp4").
Proof.
  intros argv.
  assert (Hmode : argv_at argv 1 <> Chars "comprehensive") by discriminate.
  destruct (C10_input_path_needs_seven_arguments argv)
    as (_ & Hcfg & _ & Hmain).
  destruct (Hmain Hmode) as [Hsix _].
  destruct (Hsix eq_refl) as [_ Hub].
  split; [reflexivity|]. split; [exact Hmode|].
  split; [exact (Hcfg eq_refl)|]. split; [exact Hub|reflexivity].
Defined.

(** *** Minimum, maximum and average *)







(** *** Which reads are processed *)

Lemma video_frames_good : forall good tail,
  (tail = [] \/ exists rest, tail = None :: rest) ->
  video_frames (map Some good ++ tail) = good.
Proof.
  induction good as [|g good IH]; intros tail Ht; simpl.
  - now apply video_frames_none.
  - now rewrite IH.
Qed.

Lemma camera_frames_app : forall xs ys,
  camera_frames (xs ++ ys) = camera_frames xs ++ camera_frames ys.
Proof.
  induction xs as [|[x|] xs IH]; intros ys; simpl; auto.
  now rewrite IH.
Qed.

Lemma camera_frames_good good : camera_frames (map Some good) = good.
Proof.
  induction good as [|g good IH]; simpl; auto. now rewrite IH.
Qed.

Lemma video_prefix_of_camera : forall reads,
  exists more, camera_frames reads = video_frames reads ++ more.
Proof.
  induction reads as [|[x|] reads [more IH]]; simpl.
  - now exists [].
  - exists more. now rewrite IH.
  - now exists (camera_frames reads).
Qed.

(** X10.  The video loop ends with the first failed read: it processes
    the frames read before it, and nothing that comes after it has any
    influence on the result.  The camera loop goes on after a failed
    read: it processes every frame that was read during the duration.
    So on the same reads the video benchmark counts at most as many
    frames as the camera benchmark. *)
Theorem X10_processed_frames config path camera_id probe good rest rest' :
  createDetector config = Ok tt ->
  benchmark_video_comprehensive config path true probe
    (map Some good ++ None :: rest)
  = Ok (statistics config probe good) /\
  benchmark_video_comprehensive config path true probe
    (map Some good ++ None :: rest)
  = benchmark_video_comprehensive config path true probe
      (map Some good ++ None :: rest') /\
  benchmark_camera_comprehensive config camera_id true probe
    (map Some good ++ None :: rest)
  = Ok (statistics config probe (good ++ camera_frames rest)) /\
  frame_count (statistics config probe good) = List.length good /\
  frame_count (statistics config probe (good ++ camera_frames rest))
  = List.length good + List.length (camera_frames rest) /\
  (forall reads,
     List.length (video_frames reads) <= List.length (camera_frames reads)).
Proof.
  intros Hd.
  unfold benchmark_video_comprehensive, benchmark_camera_comprehensive.
  rewrite Hd. simpl.
  rewrite !video_frames_good by (right; eauto).
  rewrite camera_frames_app, camera_frames_good. simpl.
  repeat split; auto.
  - apply length_app.
  - intros reads. destruct (video_prefix_of_camera reads) as [more ->].
    rewrite length_app. lia.
Qed.

Lemma X10_processed_frames_witness :
  let config := mkConfig "yolo11" "detection" "m.onnx" "coco.names"
                  false 1 false "fp32" in
  let probe := mkProbe 0 0 0 0 0 1 in
  let f := mkSample 0 0 0 2 3 in
  createDetector config = Ok tt /\
  benchmark_video_comprehensive config "v.mp4" true probe
    [Some f; None; Some f]
  = Ok (statistics config probe [f]) /\
  benchmark_camera_comprehensive config 0 true probe
    [Some f; None; Some f]
  = Ok (statistics config probe [f; f]).
Proof.
  intros config probe f.
  destruct (@X10_processed_frames config "v.mp4" 0%Z probe [f] [Some f] []
              eq_refl) as (Hv & _ & Hc & _).
  split; [reflexivity|]. split; [exact Hv | exact Hc].
Defined.

(** *** Which configurations run *)


Lemma createDetector_result config :
  createDetector config = Ok tt \/
  createDetector config
  = Throw (runtime_error
             ("Unsupported model type: " ++ model_type config
              ++ " with task: " ++ task_type config)%string).
Proof.
  unfold createDetector. destruct (_ && _); auto.
Qed.



(** *** What [parseConfig] returns *)

Lemma stoi_range s n : stoi s = Ok n -> (INT_MIN <= n <= INT_MAX)%Z.
Proof.
  unfold stoi.
  destruct (match skip_spaces s with
            | String "-"%char rest => (true, rest)
            | String "+"%char rest => (false, rest)
            | _ => (false, skip_spaces s)
            end) as [negative s2].
  destruct (read_digits s2 None) as [m|]; [|discriminate].
  destruct ((INT_MIN <=? (if negative then (- m)%Z else m))%Z
            && ((if negative then (- m)%Z else m) <=? INT_MAX)%Z) eqn:E;
    [|discriminate].
  intros [= <-]. apply andb_true_iff in E as [E1 E2]. lia.
Qed.

Lemma parse_option_keeps config arg c' :
  parse_option config arg = Ok c' ->
  model_type c' = model_type config /\
  task_type c' = task_type config /\
  model_path c' = model_path config /\
  labels_path c' = labels_path config /\
  (config_ok config -> config_ok c') /\
  (quantized config = true -> quantized c' = true).
Proof.
  unfold parse_option, config_ok.
  repeat match goal with
    | |- context [if ?b then _ else _] => destruct b
    end; try (intros [= <-]; simpl; tauto).
  unfold bind. destruct (stoi _) as [n| |] eqn:E; try discriminate.
  intros [= <-]. simpl. apply stoi_range in E. tauto.
Qed.

Lemma parse_options_keeps : forall args config c',
  parse_options config args = Ok c' ->
  model_type c' = model_type config /\
  task_type c' = task_type config /\
  model_path c' = model_path config /\
  labels_path c' = labels_path config /\
  (config_ok config -> config_ok c') /\
  (quantized config = true -> quantized c' = true).
Proof.
  induction args as [|arg args IH]; intros config c'; simpl.
  - intros [= <-]. tauto.
  - unfold bind.
    destruct (parse_option config arg) as [c1| |] eqn:E; try discriminate.
    intros H. apply IH in H. apply parse_option_keeps in E.
    destruct H as (-> & -> & -> & -> & ? & ?).
    destruct E as (-> & -> & -> & -> & ? & ?). tauto.
Qed.

(** X12.  Whenever [parseConfig] returns a configuration, there were
    at least six arguments, the four strings of the configuration are
    [argv[2]] to [argv[5]] untouched by any option, [precision] is
    [int8] exactly when [quantized] is set and [fp32] otherwise, and
    [thread_count] is an [int] (1 unless a [--threads=] option gave
    another one; it may be zero or negative). *)
Theorem X12_parseConfig_result argv c :
  parseConfig argv = Ok c ->
  6 <= List.length argv /\
  argv_at argv 2 = Chars (model_type c) /\
  argv_at argv 3 = Chars (task_type c) /\
  argv_at argv 4 = Chars (model_path c) /\
  argv_at argv 5 = Chars (labels_path c) /\
  ((quantized c = true /\ precision c = "int8"%string) \/
   (quantized c = false /\ precision c = "fp32"%string)) /\
  (INT_MIN <= thread_count c <= INT_MAX)%Z.
Proof.
  intros H.
  destruct argv as [|a0 [|a1 [|a2 [|a3 [|a4 [|a5 rest]]]]]];
    try discriminate H.
  unfold parseConfig in H.
  cbn [List.length Nat.ltb Nat.leb argv_at nth_error std_string bind] in H.
  apply parse_options_keeps in H. simpl in H.
  destruct H as (-> & -> & -> & -> & Hok & _).
  split; [simpl; lia|].
  repeat (split; [reflexivity|]).
  apply Hok. unfold config_ok, INT_MIN, INT_MAX. simpl.
  split; [tauto | lia].
Qed.

Lemma X12_parseConfig_result_witness :
  let argv := ["analyzer"; "image"; "yolo8"; "detection"; "m.onnx";
               "coco.names"; "dog.jpg"; "--quantized"; "--threads=-2"]%string in
  exists c,
    parseConfig argv = Ok c /\
    precision c = "int8"%string /\ thread_count c = (-2)%Z /\
    argv_at argv 2 = Chars (model_type c).
Proof.
  intros argv.
  eexists. split; [reflexivity|]. split; [reflexivity|].
  split; [reflexivity|].
  eapply (proj1 (proj2 (@X12_parseConfig_result argv _ eq_refl))).
Defined.

(** *** The options *)

Lemma parse_options_app : forall xs ys config,
  parse_options config (xs ++ ys)
  = bind (parse_options config xs) (fun c => parse_options c ys).
Proof.
  induction xs as [|x xs IH]; intros ys config; simpl; auto.
  unfold bind at 1 3.
  destruct (parse_option config x) as [c| |]; auto.
Qed.

Lemma parse_option_device config arg :
  In arg device_options ->
  parse_option config arg
  = Ok (mkConfig (model_type config) (task_type config)
          (model_path config) (labels_path config)
          ((arg =? "--gpu") || (arg =? "gpu"))%string
          (thread_count config) (quantized config) (precision config)).
Proof.
  intros [<-|[<-|[<-|[<-|[]]]]]; reflexivity.
Qed.

Lemma parse_option_other config arg c' :
  parse_option config arg = Ok c' -> ~ In arg device_options ->
  use_gpu c' = use_gpu config.
Proof.
  unfold parse_option, device_options. intros H Hn.
  destruct (String.eqb_spec arg "--gpu"); [exfalso; apply Hn; subst; simpl; auto 10|].
  destruct (String.eqb_spec arg "gpu"); [exfalso; apply Hn; subst; simpl; auto 10|].
  destruct (String.eqb_spec arg "--cpu"); [exfalso; apply Hn; subst; simpl; auto 10|].
  destruct (String.eqb_spec arg "cpu"); [exfalso; apply Hn; subst; simpl; auto 10|].
  simpl in H.
  destruct (substring 0 10 arg =? "--threads=")%string.
  - unfold bind in H. destruct (stoi _); try discriminate.
    now injection H as <-.
  - destruct (arg =? "--quantized")%string; now injection H as <-.
Qed.

Lemma parse_options_other : forall args config c',
  parse_options config args = Ok c' ->
  (forall arg, In arg args -> ~ In arg device_options) ->
  use_gpu c' = use_gpu config.
Proof.
  induction args as [|arg args IH]; intros config c' H Hn; simpl in H.
  - now injection H as <-.
  - unfold bind in H.
    destruct (parse_option config arg) as [c1| |] eqn:E; try discriminate.
    rewrite (IH _ _ H) by (intros; apply Hn; now right).
    eapply parse_option_other; [exact E|]. apply Hn. now left.
Qed.

(** X13.  The option loop of [parseConfig] handles the options one
    after the other, from [argv[7]] on: the program name, the mode and
    [argv[6]] have no influence on the configuration.  An argument
    that is none of the known options is passed over.  Of several
    device options the last one decides [use_gpu].  Once [--quantized]
    was seen no later option takes it back. *)
Theorem X13_options config :
  (forall xs ys,
     parse_options config (xs ++ ys)
     = bind (parse_options config xs) (fun c => parse_options c ys)) /\
  (forall arg,
     ~ In arg device_options ->
     arg <> "--quantized"%string ->
     substring 0 10 arg <> "--threads="%string ->
     parse_option config arg = Ok config) /\
  (forall before arg after c',
     parse_options config (before ++ arg :: after) = Ok c' ->
     In arg device_options ->
     (forall later, In later after -> ~ In later device_options) ->
     use_gpu c' = ((arg =? "--gpu") || (arg =? "gpu"))%string) /\
  (forall args c',
     parse_options config args = Ok c' ->
     quantized config = true -> quantized c' = true) /\
  (forall a0 a1 a6 b0 b1 b6 m t p l rest,
     parseConfig (a0 :: a1 :: m :: t :: p :: l :: a6 :: rest)
     = parseConfig (b0 :: b1 :: m :: t :: p :: l :: b6 :: rest)).
Proof.
  split; [intros; apply parse_options_app|].
  split.
  { intros arg Hd Hq Ht. unfold parse_option, device_options in *.
    destruct (String.eqb_spec arg "--gpu"); [exfalso; apply Hd; subst; simpl; auto 10|].
    destruct (String.eqb_spec arg "gpu"); [exfalso; apply Hd; subst; simpl; auto 10|].
    destruct (String.eqb_spec arg "--cpu"); [exfalso; apply Hd; subst; simpl; auto 10|].
    destruct (String.eqb_spec arg "cpu"); [exfalso; apply Hd; subst; simpl; auto 10|].
    destruct (String.eqb_spec (substring 0 10 arg) "--threads=");
      [contradiction|].
    destruct (String.eqb_spec arg "--quantized"); [contradiction|].
    reflexivity. }
  split.
  { intros before arg after c' H Hd Hafter.
    rewrite parse_options_app in H. unfold bind in H.
    destruct (parse_options config before) as [c1| |]; try discriminate.
    simpl in H. rewrite (parse_option_device c1 Hd) in H.
    unfold bind in H.
    pose proof (@parse_options_other _ _ _ H Hafter) as Hkeep.
    exact Hkeep. }
  split.
  { intros args c' H. now apply parse_options_keeps in H. }
  reflexivity.
Qed.

Lemma X13_options_witness :
  let config := mkConfig "yolo11" "detection" "m.onnx" "coco.names"
                  false 1 false "fp32" in
  exists c',
    parse_options config ["--gpu"; "--cpu"; "--verbose"]%string = Ok c' /\
    In "--cpu"%string device_options /\
    use_gpu c' = false.
Proof.
  intros config.
  destruct (X13_options config) as (_ & _ & Hlast & _).
  eexists. split; [reflexivity|].
  assert (Hd : In "--cpu"%string device_options) by (simpl; auto).
  split; [exact Hd|].
  apply (Hlast ["--gpu"%string] "--cpu"%string ["--verbose"%string] _
           eq_refl Hd).
  intros later [<-|[]] [H|[H|[H|[H|[]]]]]; discriminate H.
Defined.

(** *** What [main] goes on to *)

Lemma std_string_ok p s : std_string p = Ok s -> p = Chars s.
Proof.
  destruct p; simpl; congruence.
Qed.

Ltac dispatch_facts :=
  repeat match goal with
    | H : std_string _ = Ok _ |- _ => apply std_string_ok in H
    | H : (_ =? _)%string = true |- _ => apply String.eqb_eq in H
    end;
  subst.

Ltac main_cases H :=
  unfold main, main_try, bind in H;
  repeat match type of H with
    | context [match ?e with _ => _ end] =>
        lazymatch e with
        | context [match _ with _ => _ end] => fail
        | _ => destruct e eqn:?
        end
    end;
  try discriminate H.

(** X14.  The only exit code that [main] returns before it calls a
    benchmark is 1.  With mode [comprehensive] all other arguments are
    ignored.  When [main] goes on to the image, video or camera
    benchmark, the mode is [argv[1]], the configuration is the one
    [parseConfig] returned, the input is [argv[6]] as it stands (also
    when it looks like an option), [iterations] and [duration] come
    from the option loop starting at 100 and 30, and for the camera
    the input was read as an [int].  With exactly seven arguments all
    options have their defaults. *)
Theorem X14_main_dispatch argv :
  (forall code, main argv = Return code -> code = 1%Z) /\
  (forall a0 rest,
     main (a0 :: "comprehensive"%string :: rest) = Calls Comprehensive) /\
  (main argv = Calls Comprehensive ->
   argv_at argv 1 = Chars "comprehensive") /\
  (forall c path iterations,
     main argv = Calls (Image c path iterations) ->
     argv_at argv 1 = Chars "image" /\
     parseConfig argv = Ok c /\
     argv_at argv 6 = Chars path /\
     exists duration,
       main_options (100, 30)%Z (skipn 7 argv) = Ok (iterations, duration)) /\
  (forall c path,
     main argv = Calls (Video c path) ->
     argv_at argv 1 = Chars "video" /\
     parseConfig argv = Ok c /\
     argv_at argv 6 = Chars path) /\
  (forall c camera_id duration,
     main argv = Calls (Camera c camera_id duration) ->
     argv_at argv 1 = Chars "camera" /\
     parseConfig argv = Ok c /\
     (exists path, argv_at argv 6 = Chars path /\ stoi path = Ok camera_id) /\
     exists iterations,
       main_options (100, 30)%Z (skipn 7 argv) = Ok (iterations, duration)) /\
  (forall a0 m t p l input,
     let c := mkConfig m t p l false 1 false "fp32" in
     main [a0; "image"%string; m; t; p; l; input]
     = Calls (Image c input 100) /\
     main [a0; "video"%string; m; t; p; l; input]
     = Calls (Video c input) /\
     main [a0; "camera"%string; m; t; p; l; input]
     = match stoi input with
       | Ok camera_id => Calls (Camera c camera_id 30)
       | _ => Return 1
       end).
Proof.
  split.
  { intros code H. main_cases H; now injection H as <-. }
  split; [reflexivity|].
  split.
  { intros H. main_cases H. now dispatch_facts. }
  split.
  { intros c path iterations H. main_cases H.
    all: try (injection H as <-; discriminate).
    all: injection H as <- <- <-; dispatch_facts.
    all: repeat split; auto.
    all: match goal with
         | E : main_options _ _ = Ok ?o |- _ =>
             exists (snd o); now destruct o
         end. }
  split.
  { intros c path H. main_cases H.
    all: try (injection H as <-; discriminate).
    all: injection H as <- <-; dispatch_facts.
    all: repeat split; auto. }
  split.
  { intros c camera_id duration H. main_cases H.
    all: try (injection H as <-; discriminate).
    all: injection H as <- <- <-; dispatch_facts.
    all: repeat split; eauto.
    all: match goal with
         | E : main_options _ _ = Ok ?o |- _ =>
             exists (fst o); now destruct o
         end. }
  intros a0 m t p l input c. repeat split.
  unfold main, main_try, bind. simpl.
  destruct (stoi input) as [n|e|w] eqn:E; auto.
  now apply stoi_defined in E.
Qed.

Lemma X14_main_dispatch_witness :
  let argv := ["analyzer"; "camera"; "yolo11"; "detection"; "m.onnx";
               "coco.names"; "2"; "--duration=5"]%string in
  let c := mkConfig "yolo11" "detection" "m.onnx" "coco.names"
             false 1 false "fp32" in
  main argv = Calls (Camera c 2 5) /\
  argv_at argv 1 = Chars "camera" /\
  parseConfig argv = Ok c.
Proof.
  intros argv c.
  destruct (X14_main_dispatch argv) as (_ & _ & _ & _ & _ & Hcam & _).
  destruct (Hcam c 2%Z 5%Z eq_refl) as (Hmode & Hcfg & _).
  split; [reflexivity|]. split; assumption.
Defined.


(** *** The processor monitor *)




(** *** The image benchmark *)


Lemma image_result config image_path image_empty probe sample iterations w :
  benchmark_image_comprehensive config image_path image_empty probe
    sample iterations <> Undefined w.
Proof.
  unfold benchmark_image_comprehensive, bind.
  destruct (createDetector_result config) as [E|E]; rewrite E;
    [|discriminate].
  destruct image_empty; discriminate.
Qed.



(** *** The comprehensive mode *)

Lemma comprehensive_rows_spec bench : forall calls,
  (forall config iterations w, bench config iterations <> Undefined w) ->
  comprehensive_rows bench calls
  = Ok (flat_map
          (fun call =>
             match bench (fst call) (snd call) with
             | Ok metrics => [(fst call, metrics)]
             | _ => []
             end)
          calls).
Proof.
  intros calls Hdef. induction calls as [|[config iterations] calls IH].
  - reflexivity.
  - simpl. destruct (bench config iterations) as [m|e|w] eqn:E.
    + rewrite IH. reflexivity.
    + exact IH.
    + now apply Hdef in E.
Qed.

Lemma image_rows image_path probe sample : forall calls,
  (forall config iterations,
     In (config, iterations) calls -> createDetector config = Ok tt) ->
  map fst
    (flat_map
       (fun call : BenchmarkConfig * Z =>
          match benchmark_image_comprehensive (fst call) image_path false
                  probe sample (snd call) with
          | Ok metrics => [(fst call, metrics)]
          | _ => []
          end)
       calls)
  = map fst calls.
Proof.
  induction calls as [|[config it] calls IH]; intros Hsup.
  - reflexivity.
  - simpl.
    assert (Hd : createDetector config = Ok tt)
      by (apply (Hsup config it); now left).
    unfold benchmark_image_comprehensive at 1. unfold bind.
    rewrite Hd. simpl. f_equal. apply IH.
    intros c i Hin. apply (Hsup c i). now right.
Qed.

(** X17.  The comprehensive mode calls the image benchmark four times
    (CPU and GPU, 50 and 100 iterations) for every model of its table
    whose file exists, and for no other model: at most 16 calls.
    Every configuration it builds is one that [createDetector]
    supports; it has the fixed labels file, one thread, and precision
    [fp32] with [quantized] unset, also for the quantized models.  A
    benchmark that throws costs its own row only: the rows are those
    of the calls that returned, in order, and the exit code is 0.
    With the image benchmark as it is, a readable image gives one row
    per call. *)
Theorem X17_comprehensive file_exists :
  (forall config iterations,
     In (config, iterations) (comprehensive_calls file_exists) ->
     createDetector config = Ok tt /\
     file_exists (model_path config) = true /\
     labels_path config = "models/coco.names"%string /\
     thread_count config = 1%Z /\
     quantized config = false /\
     precision config = "fp32"%string /\
     (iterations = 50 \/ iterations = 100)%Z) /\
  List.length (comprehensive_calls file_exists)
  = 4 * List.length
          (filter (fun test => file_exists (snd test)) test_configs) /\
  List.length (comprehensive_calls file_exists) <= 16 /\
  (forall bench,
     (forall config iterations w, bench config iterations <> Undefined w) ->
     comprehensive file_exists bench
     = Ok (flat_map
             (fun call =>
                match bench (fst call) (snd call) with
                | Ok metrics => [(fst call, metrics)]
                | _ => []
                end)
             (comprehensive_calls file_exists), 0%Z)) /\
  (forall probe sample,
     exists rows,
       comprehensive file_exists
         (fun config iterations =>
            benchmark_image_comprehensive config "data/dog.jpg" false
              probe sample iterations)
       = Ok (rows, 0%Z) /\
       map fst rows = map fst (comprehensive_calls file_exists)).
Proof.
  assert (Hcalls :
    forall config iterations,
      In (config, iterations) (comprehensive_calls file_exists) ->
      createDetector config = Ok tt /\
      file_exists (model_path config) = true /\
      labels_path config = "models/coco.names"%string /\
      thread_count config = 1%Z /\
      quantized config = false /\
      precision config = "fp32"%string /\
      (iterations = 50 \/ iterations = 100)%Z).
  { intros config iterations Hin.
    unfold comprehensive_calls in Hin.
    apply in_flat_map in Hin as (test & Htest & Hin).
    destruct (file_exists (snd test)) eqn:Ex; [|contradiction].
    apply in_flat_map in Hin as (gpu & _ & Hin).
    apply in_map_iff in Hin as (it & [= <- <-] & Hit).
    assert (Hd : createDetector (comprehensive_config test gpu) = Ok tt).
    { simpl in Htest.
      destruct Htest as [<-|[<-|[<-|[<-|[]]]]]; reflexivity. }
    simpl in Hit. simpl. intuition. }
  split; [exact Hcalls|].
  assert (Hlen :
    List.length (comprehensive_calls file_exists)
    = 4 * List.length
            (filter (fun test => file_exists (snd test)) test_configs)).
  { unfold comprehensive_calls, test_configs. simpl.
    repeat match goal with
      | |- context [file_exists ?p] => destruct (file_exists p)
      end; reflexivity. }
  split; [exact Hlen|].
  split.
  { rewrite Hlen.
    pose proof (filter_length_le
                  (fun test : string * string * string =>
                     file_exists (snd test)) test_configs) as Hf.
    simpl in Hf. simpl. lia. }
  assert (Hrows :
    forall bench,
      (forall config iterations w,
         bench config iterations <> Undefined w) ->
      comprehensive file_exists bench
      = Ok (flat_map
              (fun call =>
                 match bench (fst call) (snd call) with
                 | Ok metrics => [(fst call, metrics)]
                 | _ => []
                 end)
              (comprehensive_calls file_exists), 0%Z)).
  { intros bench Hdef. unfold comprehensive.
    now rewrite comprehensive_rows_spec. }
  split; [exact Hrows|].
  intros probe sample. eexists. split.
  - apply Hrows. intros config iterations w. apply image_result.
  - apply image_rows. intros config it Hin. now apply (Hcalls config it).
Qed.

Lemma X17_comprehensive_witness :
  let file_exists := fun path => (path =? "models/yolo11n.onnx")%string in
  let config := comprehensive_config
                  ("yolo11", "detection", "models/yolo11n.onnx")%string
                  true in
  In (config, 100%Z) (comprehensive_calls file_exists) /\
  createDetector config = Ok tt /\
  List.length (comprehensive_calls file_exists) = 4.
Proof.
  intros file_exists config.
  destruct (X17_comprehensive file_exists) as (Hcalls & Hlen & _).
  assert (Hin : In (config, 100%Z) (comprehensive_calls file_exists))
    by (vm_compute; auto 10).
  destruct (Hcalls config 100%Z Hin) as (Hd & _).
  split; [exact Hin|]. split; [exact Hd|]. rewrite Hlen. reflexivity.
Defined.

(** *** Numbers in options *)

Lemma main_option_malformed opts arg :
  ((substring 0 13 arg = "--iterations="%string /\
    exists e, stoi (substr_from 13 arg) = Throw e) \/
   (substring 0 13 arg <> "--iterations="%string /\
    substring 0 11 arg = "--duration="%string /\
    exists e, stoi (substr_from 11 arg) = Throw e)) ->
  exists e, main_option opts arg = Throw e.
Proof.
  unfold main_option, bind.
  intros [[Hp [e He]]|[Hn [Hp [e He]]]].
  - rewrite Hp, He. simpl. eauto.
  - apply String.eqb_neq in Hn. rewrite Hn, Hp, He. simpl. eauto.
Qed.

Lemma main_options_malformed : forall args opts arg,
  In arg args ->
  (forall o, exists e, main_option o arg = Throw e) ->
  exists e, main_options opts args = Throw e.
Proof.
  induction args as [|a args IH]; intros opts arg Hin Hbad; [contradiction|].
  simpl. unfold bind.
  destruct (main_option opts a) as [o|e|w] eqn:E.
  - destruct Hin as [->|Hin].
    + destruct (Hbad opts) as [e He]. congruence.
    + eapply IH; eauto.
  - eauto.
  - now apply main_option_defined in E.
Qed.

(** X18.  A number that [std::stoi] cannot read in an [--iterations=]
    or [--duration=] option makes [main] return 1 in every
    single-benchmark mode, also in a mode that does not use the
    option (such as [video]), and whatever the other arguments
    are. *)
Theorem X18_malformed_number argv arg :
  7 <= List.length argv ->
  argv_at argv 1 <> Chars "comprehensive" ->
  In arg (skipn 7 argv) ->
  ((substring 0 13 arg = "--iterations="%string /\
    exists e, stoi (substr_from 13 arg) = Throw e) \/
   (substring 0 13 arg <> "--iterations="%string /\
    substring 0 11 arg = "--duration="%string /\
    exists e, stoi (substr_from 11 arg) = Throw e)) ->
  main argv = Return 1.
Proof.
  intros Hlen Hmode Hin Hbad.
  destruct argv as [|a0 [|a1 [|a2 [|a3 [|a4 [|a5 [|a6 rest]]]]]]];
    simpl in Hlen; try lia.
  apply mode_test in Hmode.
  destruct (@main_options_malformed rest (100, 30)%Z arg Hin) as [e He].
  { intros o. now apply main_option_malformed. }
  unfold main, main_try.
  cbn [List.length Nat.ltb Nat.leb argv_at nth_error std_string bind skipn].
  rewrite Hmode.
  destruct (parseConfig _) as [c|e'|w] eqn:Ec; try reflexivity.
  - cbn [std_string bind]. simpl in He. rewrite He. reflexivity.
  - exfalso. revert Ec. unfold parseConfig.
    cbn [List.length Nat.ltb Nat.leb argv_at nth_error std_string bind skipn].
    apply parse_options_defined.
Qed.

Lemma X18_malformed_number_witness :
  let argv := ["analyzer"; "video"; "yolo11"; "detection"; "m.onnx";
               "coco.names"; "dogs.mp4"; "--iterations=many"]%string in
  7 <= List.length argv /\
  In "--iterations=many"%string (skipn 7 argv) /\
  stoi "many" = Throw (invalid_argument "stoi") /\
  main argv = Return 1.
Proof.
  intros argv.
  assert (Hlen : 7 <= List.length argv) by (simpl; lia).
  assert (Hin : In "--iterations=many"%string (skipn 7 argv))
    by (simpl; auto).
  split; [exact Hlen|]. split; [exact Hin|]. split; [reflexivity|].
  apply (@X18_malformed_number argv "--iterations=many"%string Hlen).
  - discriminate.
  - exact Hin.
  - left. split; [reflexivity|]. eexists. reflexivity.
Defined.

End AnalyzerFacts.
